(** * hashstructure: a shallow embedding of [Hash] and [walker.visit]

    The development follows [hashstructure.go].  Go values are finite trees
    ([value]); a [reflect.Value] is a tree together with the two permission
    bits the visitor can observe (read-only and addressable); the hasher the
    visitor writes to is an output stream of [Write] calls; errors and panics
    are explicit results. *)

From Stdlib Require Import ZArith List String Ascii Bool Permutation.
Import ListNotations.
Local Open Scope Z_scope.
Local Open Scope string_scope.
Local Open Scope list_scope.

(** ** Bytes and fixed-width little-endian encoding ([encoding/binary]) *)

(** A byte is a [Z] in [0, 256). *)
Definition byte := Z.

(** [LittleEndian.PutUintN]: the [n] low-order bytes of [x], least
    significant first.  A negative [x] is written in two's complement. *)
Fixpoint le_bytes (n : nat) (x : Z) : list byte :=
  match n with
  | O => []
  | S n' => Z.land x 255 :: le_bytes n' (Z.shiftr x 8)
  end.

Definition bytes_of_string (s : string) : list byte :=
  map (fun c => Z.of_N (N_of_ascii c)) (list_ascii_of_string s).

(** ** [hash/crc64] with the ECMA polynomial *)

Module crc64.

Definition ECMA : Z := 0xC96C5795D7870F42.

Fixpoint table_entry (j : nat) (crc : Z) : Z :=
  match j with
  | O => crc
  | S j' =>
      table_entry j'
        (if Z.testbit crc 0 then Z.lxor (Z.shiftr crc 1) ECMA
         else Z.shiftr crc 1)
  end.

(** [MakeTable(ECMA)[i]]. *)
Definition tab (i : Z) : Z := table_entry 8 i.

Definition not64 (x : Z) : Z := Z.lxor x (2 ^ 64 - 1).

(** [update]: the loop over the bytes, between the two complements. *)
Definition update_loop (crc : Z) (p : list byte) : Z :=
  fold_left
    (fun crc v => Z.lxor (tab (Z.lxor (Z.land crc 255) v)) (Z.shiftr crc 8))
    p crc.

Definition update (crc : Z) (p : list byte) : Z :=
  not64 (update_loop (not64 crc) p).

End crc64.

(** ** [hash.Hash64]

    An implementation of the interface: its state, the state [Reset] returns
    to, [Write] and [Sum64].  By the interface's contract [Write] never
    returns an error. *)
Record Hash64 : Type := mkHash64 {
  hstate : Type;
  hinit : hstate;
  hcur : hstate;
  hWrite : hstate -> list byte -> hstate;
  hSum64 : hstate -> Z
}.

Definition Reset (h : Hash64) : Hash64 :=
  mkHash64 (hstate h) (hinit h) (hinit h) (hWrite h) (hSum64 h).

Definition Write (h : Hash64) (p : list byte) : Hash64 :=
  mkHash64 (hstate h) (hinit h) (hWrite h (hcur h) p) (hWrite h) (hSum64 h).

Definition Sum64 (h : Hash64) : Z := hSum64 h (hcur h).

(** [crc64.New(crc64.MakeTable(crc64.ECMA))]: the digest starts at 0. *)
Definition crc64_New : Hash64 := mkHash64 Z 0 0 crc64.update (fun crc => crc).

(** ** [reflect.Kind] *)

Module reflect.

Inductive Kind : Type :=
| Invalid | Bool | Int | Int8 | Int16 | Int32 | Int64
| Uint | Uint8 | Uint16 | Uint32 | Uint64 | Uintptr
| Float32 | Float64 | Complex64 | Complex128
| Array | Chan | Func | Interface | Map | Ptr | Slice | String
| Struct | UnsafePointer.

(** The numeric value of a kind: its position in the declaration. *)
Definition code (k : Kind) : Z :=
  match k with
  | Invalid => 0 | Bool => 1 | Int => 2 | Int8 => 3 | Int16 => 4
  | Int32 => 5 | Int64 => 6 | Uint => 7 | Uint8 => 8 | Uint16 => 9
  | Uint32 => 10 | Uint64 => 11 | Uintptr => 12 | Float32 => 13
  | Float64 => 14 | Complex64 => 15 | Complex128 => 16 | Array => 17
  | Chan => 18 | Func => 19 | Interface => 20 | Map => 21 | Ptr => 22
  | Slice => 23 | String => 24 | Struct => 25 | UnsafePointer => 26
  end.

End reflect.

(** ** Go values *)

(** The numeric types: integers, floats and complex numbers. *)
Inductive numeric : Type :=
| TInt | TInt8 | TInt16 | TInt32 | TInt64
| TUint | TUint8 | TUint16 | TUint32 | TUint64 | TUintptr
| TFloat32 | TFloat64 | TComplex64 | TComplex128.

Definition numeric_kind (t : numeric) : reflect.Kind :=
  match t with
  | TInt => reflect.Int | TInt8 => reflect.Int8 | TInt16 => reflect.Int16
  | TInt32 => reflect.Int32 | TInt64 => reflect.Int64
  | TUint => reflect.Uint | TUint8 => reflect.Uint8
  | TUint16 => reflect.Uint16 | TUint32 => reflect.Uint32
  | TUint64 => reflect.Uint64 | TUintptr => reflect.Uintptr
  | TFloat32 => reflect.Float32 | TFloat64 => reflect.Float64
  | TComplex64 => reflect.Complex64 | TComplex128 => reflect.Complex128
  end.

(** [reflect.StructTag], already split into its [key:value] pairs. *)
Definition StructTag := list (string * string).

(** [StructTag.Get]: the value of the first pair with that key, or the
    empty string. *)
Fixpoint Tag_Get (tag : StructTag) (key : string) : string :=
  match tag with
  | [] => ""
  | (k, v) :: tag' => if String.eqb k key then v else Tag_Get tag' key
  end.

(** A member of a struct: [reflect.StructField] with the member's value. *)
Record StructField (V : Type) : Type := mkField {
  Name : string;
  Tag : StructTag;
  Val : V
}.
Arguments mkField {V} _ _ _.
Arguments Name {V} _.
Arguments Tag {V} _.
Arguments Val {V} _.

(** A Go value, as a finite tree (a cyclic structure has no such tree).
    - [VNum t n]: for an integer type [n] is the number, for a float type its
      IEEE-754 bit pattern, for a complex type the two bit patterns, real
      part in the low half;
    - [VMap]: the entries in the order [MapKeys] enumerates them, each key
      with the value [MapIndex] finds for it (no NaN keys);
    - [VStruct]: the name of the struct's type, which decides its method
      set, and its members in declaration order;
    - [VPtr None] is the nil pointer, [VInterface None] the nil interface.
    A nil slice is [VSlice []] and a nil map [VMap []]: [Len] and [MapKeys]
    do not tell them from empty ones. *)
#[warnings="-register-all"]
Inductive value : Type :=
| VBool (b : bool)
| VNum (t : numeric) (n : Z)
| VString (s : string)
| VArray (elems : list value)
| VSlice (elems : list value)
| VMap (entries : list (value * value))
| VStruct (tname : string) (fields : list (StructField value))
| VPtr (target : option value)
| VInterface (dyn : option value)
| VChan
| VFunc
| VUnsafePointer.

(** Whether an identifier is exported: its first letter is upper case
    (identifiers are taken to be ASCII). *)
Definition IsExported (name : string) : bool :=
  match name with
  | EmptyString => false
  | String.String c _ =>
      let n := N_of_ascii c in ((65 <=? n) && (n <=? 90))%N
  end.

(** ** Results, events and the visitor's monad *)

Inductive error : Type :=
| ErrUnknownKind (k : reflect.Kind)   (* "unknown kind to hash: %s" *)
| ErrBinaryWrite (t : numeric)         (* binary.Write: invalid type *)
| ErrHook (msg : string).              (* an error returned by a hook *)

(** What a call does that is visible outside it: a [Write] on the hasher,
    or a consultation of a hook. *)
Inductive event : Type :=
| EvWrite (p : list byte)
| EvHashInclude (tname field : string) (v : value)
| EvHashIncludeMap (tname field : string) (k v : value).

(** How a call ends: normally, with an error, or in a panic
    ([reflect.Value.Interface] on a value obtained from an unexported
    member). *)
Inductive res (A : Type) : Type :=
| Ok (a : A)
| Err (e : error)
| Panic.
Arguments Ok {A} _.
Arguments Err {A} _.
Arguments Panic {A}.

Definition M (A : Type) : Type := (list event * res A)%type.

Definition ret {A} (a : A) : M A := ([], Ok a).
Definition fail {A} (e : error) : M A := ([], Err e).
Definition panic {A} : M A := ([], Panic).
Definition emit (e : event) : M unit := ([e], Ok tt).

Definition bind {A B} (m : M A) (k : A -> M B) : M B :=
  match m with
  | (tr, Ok a) => let (tr', r) := k a in (tr ++ tr', r)
  | (tr, Err e) => (tr, Err e)
  | (tr, Panic) => (tr, Panic)
  end.

Notation "x <- m ;; k" := (bind m (fun x => k))
  (at level 61, m at next level, right associativity).
Notation "m ;;; k" := (bind m (fun _ => k))
  (at level 61, right associativity).

Definition is_write (e : event) : bool :=
  match e with EvWrite _ => true | _ => false end.

(** The hook consultations of a trace. *)
Definition hooks (tr : list event) : list event :=
  filter (fun e => negb (is_write e)) tr.

(** The hasher after the [Write]s of a trace. *)
Definition feed (h : Hash64) (tr : list event) : Hash64 :=
  fold_left (fun h e => match e with EvWrite p => Write h p | _ => h end)
    tr h.

(** ** The visitor *)

(** [visitFlag]: [visitFlagInvalid] is [iota] at 0 and [visitFlagSet] is
    [iota << 1] at [iota = 1]. *)
Definition visitFlagInvalid : Z := 0.
Definition visitFlagSet : Z := Z.shiftl 1 1.

Record visitOpts : Type := mkVisitOpts {
  Flags : Z;
  Struct_ : option value;
  StructField_ : string
}.

(** The size [binary.Write] gives a numeric type; the platform-dependent
    types have none and are refused. *)
Definition binary_size (t : numeric) : option nat :=
  match t with
  | TInt8 | TUint8 => Some 1%nat
  | TInt16 | TUint16 => Some 2%nat
  | TInt32 | TUint32 | TFloat32 => Some 4%nat
  | TInt64 | TUint64 | TFloat64 | TComplex64 => Some 8%nat
  | TComplex128 => Some 16%nat
  | TInt | TUint | TUintptr => None
  end.

(** [binary.Write(w.w, binary.LittleEndian, x)] for [x] of numeric type
    [t]: one [Write] of the encoding. *)
Definition binary_Write (t : numeric) (n : Z) : M unit :=
  match binary_size t with
  | Some sz => emit (EvWrite (le_bytes sz n))
  | None => fail (ErrBinaryWrite t)
  end.

(** [v.Interface()] panics on a read-only [reflect.Value]. *)
Definition Interface_ (ro : bool) : M unit :=
  if ro then panic else ret tt.

(** [v.CanSet()]. *)
Definition CanSet (ro addr : bool) : bool := addr && negb ro.

(** The visitor on a numeric value: the normalisation of [int] and [uint]
    to 64 bits (a fresh value, hence no longer read-only), then the
    shortcut for the kinds from [Int] to [Complex64]; any other kind ends
    in the [default] case of the switch. *)
Definition visit_numeric (ro : bool) (t : numeric) (n : Z) : M unit :=
  let '(ro, t) :=
    match t with
    | TInt => (false, TInt64)
    | TUint => (false, TUint64)
    | _ => (ro, t)
    end in
  let k := numeric_kind t in
  if ((reflect.code reflect.Int <=? reflect.code k)
      && (reflect.code k <=? reflect.code reflect.Complex64))%Z
  then Interface_ ro ;;; binary_Write t n
  else fail (ErrUnknownKind k).

(** The tail of [Hash] once the walk [m] of the value is known, for the
    hasher [h]: the digest on success, the error otherwise.  The writes of
    the walk go to [h], its hook consultations stay visible. *)
Definition finish (h : Hash64) (m : M unit) : M Z :=
  let (tr, r) := m in
  (hooks tr,
   match r with
   | Ok _ => Ok (Sum64 (feed (Reset h) tr))
   | Err e => Err e
   | Panic => Panic
   end).

(** The methods of the two capabilities: [HashInclude(field, v)] and
    [HashIncludeMap(field, k, v)], each returning [(bool, error)]. *)
Definition HashInclude : Type := string -> value -> bool * option error.
Definition HashIncludeMap : Type :=
  string -> value -> value -> bool * option error.

(** [HashOptions]: [Hasher] is [None] when the field is nil. *)
Record HashOptions : Type := mkHashOptions {
  Hasher : option Hash64;
  TagName : string
}.

(** What a call of [Hash] returns: the digest and the error (if any), unless
    it panics. *)
Inductive outcome : Type :=
| Returns (digest : Z) (err : option error)
| Panics.

Record HashResult : Type := mkHashResult {
  returned : outcome;
  opts_after : option HashOptions;
  consulted : list event
}.

Section Visitor.

(** Modelled from the spec: the capabilities [Includable] and
    [IncludableMap], whose declarations are not among the sources.  The
    tables give, for the name of a struct type, the method of the type, if
    it has the capability.  A method decides from the arguments of the call
    as the spec gives them: the member's name and its value, and for a
    mapping entry the name of the member that holds the mapping, the key
    and the value (the values alone, without the permission bits of the
    [reflect.Value] that carries them). *)
Variable Includable : string -> option HashInclude.
Variable IncludableMap : string -> option HashIncludeMap.

(** A call of a hook: the consultation is recorded, an error aborts. *)
Definition consult (ev : event) (r : bool * option error) : M bool :=
  emit ev ;;;
  match r with
  | (_, Some e) => fail e
  | (incl, None) => ret incl
  end.

(** [opts.Struct.(IncludableMap)] *)
Definition includeMap_of (opts : option visitOpts) :
  option (string * HashIncludeMap) :=
  match opts with
  | Some o =>
      match Struct_ o with
      | Some (VStruct t _) =>
          match IncludableMap t with
          | Some f => Some (t, f)
          | None => None
          end
      | _ => None
      end
  | None => None
  end.

Definition StructField_of (opts : option visitOpts) : string :=
  match opts with Some o => StructField_ o | None => "" end.

(** [opts != nil && (opts.Flags & visitFlagSet) != 0] *)
Definition is_set (opts : option visitOpts) : bool :=
  match opts with
  | Some o => negb (Z.land (Flags o) visitFlagSet =? 0)%Z
  | None => false
  end.

(** [walker.visit].  [tag] is [w.tag]; [ro] and [addr] are the read-only
    and addressable bits of the [reflect.Value]; the writes on [w.w] are
    the [EvWrite] events of the result.  The calls [Hash(x, nil)] on the
    entries of a mapping and on the elements of a set are [finish] on the
    walk of [x] by a new walker with the tag "hash". *)
Fixpoint visit (tag : string) (v : value) (ro addr : bool)
    (opts : option visitOpts) {struct v} : M unit :=
  match v with
  | VInterface (Some x) => visit tag x ro false opts
  | VPtr (Some x) => visit tag x ro true opts
  | VInterface None | VPtr None =>
      (* not valid: treated like an int8 zero *)
      visit_numeric false TInt8 0
  | VBool b => visit_numeric false TInt8 (if b then 1 else 0)
  | VNum t n => visit_numeric ro t n
  | VArray elems =>
      (fix loop (l : list value) : M unit :=
         match l with
         | [] => ret tt
         | x :: l' => visit tag x ro addr None ;;; loop l'
         end) elems
  | VMap entries =>
      let includeMap := includeMap_of opts in
      h <- (fix loop (l : list (value * value)) (h : Z) : M Z :=
              match l with
              | [] => ret h
              | (k, x) :: l' =>
                  incl <- match includeMap with
                          | Some (t, f) =>
                              Interface_ ro ;;;
                              consult
                                (EvHashIncludeMap t (StructField_of opts) k x)
                                (f (StructField_of opts) k x)
                          | None => ret true
                          end ;;
                  if incl then
                    Interface_ ro ;;;
                    kh <- finish crc64_New (visit "hash" k false false None) ;;
                    vh <- finish crc64_New (visit "hash" x false false None) ;;
                    loop l' (Z.lxor (Z.lxor h kh) vh)
                  else loop l' h
              end) entries 0 ;;
      binary_Write TUint64 h
  | VStruct tname fields =>
      Interface_ ro ;;;
      let include := Includable tname in
      (fix loop (l : list (StructField value)) : M unit :=
         match l with
         | [] => ret tt
         | fld :: l' =>
             let fro := ro || negb (IsExported (Name fld)) in
             if CanSet fro addr || negb (String.eqb (Name fld) "_") then
               let ftag := Tag_Get (Tag fld) tag in
               if String.eqb ftag "ignore" then loop l'
               else
                 incl <- match include with
                         | Some f =>
                             consult
                               (EvHashInclude tname (Name fld) (Val fld))
                               (f (Name fld) (Val fld))
                         | None => ret true
                         end ;;
                 if incl then
                   let f := if String.eqb ftag "set"
                            then Z.lor visitFlagInvalid visitFlagSet
                            else visitFlagInvalid in
                   visit tag (Val fld) fro addr
                     (Some (mkVisitOpts f (Some v) (Name fld))) ;;;
                   loop l'
                 else loop l'
             else loop l'
         end) fields
  | VSlice elems =>
      let set := is_set opts in
      h <- (fix loop (l : list value) (h : Z) : M Z :=
              match l with
              | [] => ret h
              | x :: l' =>
                  if set then
                    Interface_ ro ;;;
                    hc <- finish crc64_New (visit "hash" x false false None) ;;
                    loop l' (Z.lxor h hc)
                  else
                    visit tag x ro true None ;;; loop l' h
              end) elems 0 ;;
      if set then binary_Write TUint64 h else ret tt
  | VString s => emit (EvWrite (bytes_of_string s))
  | VChan => fail (ErrUnknownKind reflect.Chan)
  | VFunc => fail (ErrUnknownKind reflect.Func)
  | VUnsafePointer => fail (ErrUnknownKind reflect.UnsafePointer)
  end.

(** ** The entry point *)

(** [Hash].  The result is what the caller can observe: what the call
    returns (or that it panics), the options struct [opts] points to after
    the call ([None] when [opts] is nil), and the hooks consulted.
    [reflect.ValueOf(v)] is neither read-only nor addressable; a nil
    interface argument is [VInterface None]. *)
Definition Hash (v : value) (opts : option HashOptions) : HashResult :=
  (* Create default options *)
  let o := match opts with
           | None => mkHashOptions None ""
           | Some o => o
           end in
  let hasher := match Hasher o with
                | None => crc64_New
                | Some h => h
                end in
  let tagName := if String.eqb (TagName o) "" then "hash" else TagName o in
  (* Reset the hash *)
  let hasher := Reset hasher in
  (* Create our walker and walk the structure *)
  let (tr, r) := visit tagName v false false None in
  let hasher := feed hasher tr in
  mkHashResult
    match r with
    | Ok _ => Returns (Sum64 hasher) None
    | Err e => Returns 0 (Some e)
    | Panic => Panics
    end
    match opts with
    | None => None
    | Some _ => Some (mkHashOptions (Some hasher) tagName)
    end
    (hooks tr).

(** ** The loops of the visitor, as functions of their own

    Each one is the corresponding loop of [visit], verbatim; the
    [visit_V*] equations below say so. *)

(** [Hash(x.Interface(), nil)] followed by [if err != nil { return err }]. *)
Definition subHash (x : value) : M Z :=
  finish crc64_New (visit "hash" x false false None).

Fixpoint array_loop (tag : string) (ro addr : bool) (l : list value)
    : M unit :=
  match l with
  | [] => ret tt
  | x :: l' => visit tag x ro addr None ;;; array_loop tag ro addr l'
  end.

Definition map_hook (includeMap : option (string * HashIncludeMap))
    (ro : bool) (field : string) (k x : value) : M bool :=
  match includeMap with
  | Some (t, f) =>
      Interface_ ro ;;;
      consult (EvHashIncludeMap t field k x) (f field k x)
  | None => ret true
  end.

Fixpoint map_loop (includeMap : option (string * HashIncludeMap))
    (ro : bool) (field : string) (l : list (value * value)) (h : Z)
    : M Z :=
  match l with
  | [] => ret h
  | (k, x) :: l' =>
      incl <- map_hook includeMap ro field k x ;;
      if incl then
        Interface_ ro ;;;
        kh <- subHash k ;;
        vh <- subHash x ;;
        map_loop includeMap ro field l' (Z.lxor (Z.lxor h kh) vh)
      else map_loop includeMap ro field l' h
  end.

Definition field_hook (tname : string) (fld : StructField value) : M bool :=
  match Includable tname with
  | Some f =>
      consult (EvHashInclude tname (Name fld) (Val fld))
        (f (Name fld) (Val fld))
  | None => ret true
  end.

Definition field_flags (ftag : string) : Z :=
  if String.eqb ftag "set" then Z.lor visitFlagInvalid visitFlagSet
  else visitFlagInvalid.

(** One iteration of the loop over the members of a struct. *)
Definition visit_field (tag tname : string) (parent : value)
    (ro addr : bool) (fld : StructField value) : M unit :=
  let fro := ro || negb (IsExported (Name fld)) in
  if CanSet fro addr || negb (String.eqb (Name fld) "_") then
    let ftag := Tag_Get (Tag fld) tag in
    if String.eqb ftag "ignore" then ret tt
    else
      incl <- field_hook tname fld ;;
      if incl then
        visit tag (Val fld) fro addr
          (Some (mkVisitOpts (field_flags ftag) (Some parent) (Name fld)))
      else ret tt
  else ret tt.

Fixpoint field_loop (tag tname : string) (parent : value) (ro addr : bool)
    (l : list (StructField value)) : M unit :=
  match l with
  | [] => ret tt
  | fld :: l' =>
      visit_field tag tname parent ro addr fld ;;;
      field_loop tag tname parent ro addr l'
  end.

Fixpoint slice_loop (tag : string) (ro set : bool) (l : list value) (h : Z)
    : M Z :=
  match l with
  | [] => ret h
  | x :: l' =>
      if set then
        Interface_ ro ;;;
        hc <- subHash x ;;
        slice_loop tag ro set l' (Z.lxor h hc)
      else
        visit tag x ro true None ;;; slice_loop tag ro set l' h
  end.

(** What one entry of a mapping adds to the running total (0 when the hook
    leaves it out). *)
Definition entry_contrib (includeMap : option (string * HashIncludeMap))
    (ro : bool) (field : string) (e : value * value) : M Z :=
  incl <- map_hook includeMap ro field (fst e) (snd e) ;;
  if incl then
    Interface_ ro ;;;
    kh <- subHash (fst e) ;;
    vh <- subHash (snd e) ;;
    ret (Z.lxor kh vh)
  else ret 0.

End Visitor.

(** The hook tables of a program none of whose types has a capability. *)
Definition no_Includable : string -> option HashInclude :=
  fun _ => None.
Definition no_IncludableMap : string -> option HashIncludeMap :=
  fun _ => None.

(** ** Vocabulary of the properties *)

(** Wrapping a value in references and boxed dynamic values. *)
Inductive wrapper : Type := ByPtr | ByInterface.

Definition wrap1 (w : wrapper) (v : value) : value :=
  match w with
  | ByPtr => VPtr (Some v)
  | ByInterface => VInterface (Some v)
  end.

Definition wrap (ws : list wrapper) (v : value) : value :=
  fold_right wrap1 v ws.

(** The [Write]s of a trace. *)
Definition writes (tr : list event) : list event := filter is_write tr.

(** Two calls of [Hash] agree on the digest: both succeed with the same
    digest, or both fail, each with the zero digest and an error or in a
    panic. *)
Definition same_digest (a b : outcome) : Prop :=
  match a, b with
  | Returns d1 None, Returns d2 None => d1 = d2
  | Returns d1 (Some _), Returns d2 (Some _) => d1 = 0 /\ d2 = 0
  | Returns d1 (Some _), Panics => d1 = 0
  | Panics, Returns d2 (Some _) => d2 = 0
  | Panics, Panics => True
  | _, _ => False
  end.

(** The hasher and the tag key a call of [Hash] works with. *)
Definition hasher_of (opts : option HashOptions) : Hash64 :=
  match opts with
  | Some (mkHashOptions (Some h) _) => h
  | _ => crc64_New
  end.

Definition tag_of (opts : option HashOptions) : string :=
  match opts with
  | Some o => if String.eqb (TagName o) "" then "hash" else TagName o
  | None => "hash"
  end.

(** What a computation amounts to for the digest: its value and its
    [Write]s when it ends normally, nothing when it fails. *)
Definition effect {A} (m : M A) : option (A * list event) :=
  match snd m with
  | Ok a => Some (a, writes (fst m))
  | _ => None
  end.

(** The value a computation ends with, if it ends normally. *)
Definition value_of {A} (m : M A) : option A := option_map fst (effect m).

(** A computation that writes nothing to the hasher. *)
Definition silent {A} (m : M A) : Prop := writes (fst m) = [].

(** The XOR of the contributions of the members of an unordered collection;
    one failure makes the whole fail. *)
Fixpoint xor_opts (l : list (option Z)) : option Z :=
  match l with
  | [] => Some 0
  | c :: l' =>
      match c, xor_opts l' with
      | Some a, Some b => Some (Z.lxor a b)
      | _, _ => None
      end
  end.

(** The keys and the values of a mapping, as one collection. *)
Definition items (es : list (value * value)) : list value :=
  map fst es ++ map snd es.

(** [Hash] in a program with no hooks. *)
Definition Hash0 : value -> option HashOptions -> HashResult :=
  Hash no_Includable no_IncludableMap.

(** Concrete values used below. *)
Definition str (s : string) : value := VString s.
Definition int64 (n : Z) : value := VNum TInt64 n.
Definition int8 (n : Z) : value := VNum TInt8 n.

(** A computation that ends normally. *)
Definition passes {A} (m : M A) : Prop := exists a, snd m = Ok a.

Section Reaches.

Variable Includable : string -> option HashInclude.
Variable IncludableMap : string -> option HashIncludeMap.

(** [reaches tag v ro addr o k]: the depth-first traversal of [v], by a
    walker with the tag key [tag], gets to a value of the kind [k], for
    which the visitor has no rule; everything it visits before that value,
    hooks included, ends normally, and no hook or annotation leaves out the
    members and entries on the way. *)
Inductive reaches :
    string -> value -> bool -> bool -> option visitOpts -> reflect.Kind -> Prop :=
| reach_chan tag ro addr o : reaches tag VChan ro addr o reflect.Chan
| reach_func tag ro addr o : reaches tag VFunc ro addr o reflect.Func
| reach_unsafe_pointer tag ro addr o :
    reaches tag VUnsafePointer ro addr o reflect.UnsafePointer
| reach_complex128 tag n ro addr o :
    reaches tag (VNum TComplex128 n) ro addr o reflect.Complex128
| reach_ptr tag x ro addr o k :
    reaches tag x ro true o k -> reaches tag (VPtr (Some x)) ro addr o k
| reach_interface tag x ro addr o k :
    reaches tag x ro false o k -> reaches tag (VInterface (Some x)) ro addr o k
| reach_array tag pre x post ro addr o k :
    passes (array_loop Includable IncludableMap tag ro addr pre) ->
    reaches tag x ro addr None k ->
    reaches tag (VArray (pre ++ x :: post)) ro addr o k
| reach_slice tag pre x post ro addr o k :
    is_set o = false ->
    passes (slice_loop Includable IncludableMap tag ro false pre 0) ->
    reaches tag x ro true None k ->
    reaches tag (VSlice (pre ++ x :: post)) ro addr o k
| reach_set tag pre x post addr o k :
    is_set o = true ->
    passes (slice_loop Includable IncludableMap tag false true pre 0) ->
    reaches "hash" x false false None k ->
    reaches tag (VSlice (pre ++ x :: post)) false addr o k
| reach_map_key tag pre k0 x post addr o k :
    passes (map_loop Includable IncludableMap (includeMap_of IncludableMap o)
              false (StructField_of o) pre 0) ->
    value_of (map_hook (includeMap_of IncludableMap o) false
                (StructField_of o) k0 x) = Some true ->
    reaches "hash" k0 false false None k ->
    reaches tag (VMap (pre ++ (k0, x) :: post)) false addr o k
| reach_map_value tag pre k0 x post addr o k :
    passes (map_loop Includable IncludableMap (includeMap_of IncludableMap o)
              false (StructField_of o) pre 0) ->
    value_of (map_hook (includeMap_of IncludableMap o) false
                (StructField_of o) k0 x) = Some true ->
    passes (subHash Includable IncludableMap k0) ->
    reaches "hash" x false false None k ->
    reaches tag (VMap (pre ++ (k0, x) :: post)) false addr o k
| reach_member tag t pre f post addr o k :
    passes (field_loop Includable IncludableMap tag t
              (VStruct t (pre ++ f :: post)) false addr pre) ->
    String.eqb (Name f) "_" = false ->
    String.eqb (Tag_Get (Tag f) tag) "ignore" = false ->
    value_of (field_hook Includable t f) = Some true ->
    reaches tag (Val f) (negb (IsExported (Name f))) addr
      (Some (mkVisitOpts (field_flags (Tag_Get (Tag f) tag))
               (Some (VStruct t (pre ++ f :: post))) (Name f))) k ->
    reaches tag (VStruct t (pre ++ f :: post)) false addr o k.

End Reaches.

(** A struct with a function in a slice, behind a pointer. *)
Definition withCallback : value :=
  VPtr (Some (VStruct "" [mkField "Name" [] (str "x");
                          mkField "Handlers" [] (VSlice [int64 1; VFunc])])).

(** ** The same value under another enumeration of its mappings *)

(** [reorder v v']: [v'] is [v] with the entries of its mappings, at any
    depth, enumerated in another order. *)
Inductive reorder : value -> value -> Prop :=
| reorder_refl v : reorder v v
| reorder_trans u v w : reorder u v -> reorder v w -> reorder u w
| reorder_array l l' : reorder_list l l' -> reorder (VArray l) (VArray l')
| reorder_slice l l' : reorder_list l l' -> reorder (VSlice l) (VSlice l')
| reorder_map es es' : reorder_entries es es' -> reorder (VMap es) (VMap es')
| reorder_struct t fs fs' :
    reorder_fields fs fs' -> reorder (VStruct t fs) (VStruct t fs')
| reorder_ptr x x' : reorder x x' -> reorder (VPtr (Some x)) (VPtr (Some x'))
| reorder_interface x x' :
    reorder x x' -> reorder (VInterface (Some x)) (VInterface (Some x'))
with reorder_list : list value -> list value -> Prop :=
| reorder_nil : reorder_list [] []
| reorder_cons x x' l l' :
    reorder x x' -> reorder_list l l' -> reorder_list (x :: l) (x' :: l')
with reorder_entries : list (value * value) -> list (value * value) -> Prop :=
| entries_perm es es' : Permutation es es' -> reorder_entries es es'
| entries_cons k k' x x' es es' :
    reorder k k' -> reorder x x' -> reorder_entries es es' ->
    reorder_entries ((k, x) :: es) ((k', x') :: es')
| entries_trans es es' es'' :
    reorder_entries es es' -> reorder_entries es' es'' ->
    reorder_entries es es''
with reorder_fields :
    list (StructField value) -> list (StructField value) -> Prop :=
| fields_nil : reorder_fields [] []
| fields_cons n tg x x' fs fs' :
    reorder x x' -> reorder_fields fs fs' ->
    reorder_fields (mkField n tg x :: fs) (mkField n tg x' :: fs').

Scheme reorder_min := Minimality for reorder Sort Prop
  with reorder_list_min := Minimality for reorder_list Sort Prop
  with reorder_entries_min := Minimality for reorder_entries Sort Prop
  with reorder_fields_min := Minimality for reorder_fields Sort Prop.

Combined Scheme reorder_mutind
  from reorder_min, reorder_list_min, reorder_entries_min, reorder_fields_min.

(** Hooks cannot tell one enumeration of a mapping from another. *)
Definition hooks_ignore_order
    (Includable : string -> option HashInclude)
    (IncludableMap : string -> option HashIncludeMap)
    : Prop :=
  (forall t f n x x',
      Includable t = Some f -> reorder x x' -> f n x = f n x')
  /\ (forall t f n k k' x x',
         IncludableMap t = Some f -> reorder k k' -> reorder x x' ->
         f n k x = f n k' x').

Section Sameness.

Variable Includable : string -> option HashInclude.
Variable IncludableMap : string -> option HashIncludeMap.

(** The visitor's options, as far as it looks at them. *)
Definition same_opts (o o' : option visitOpts) : Prop :=
  is_set o = is_set o'
  /\ includeMap_of IncludableMap o = includeMap_of IncludableMap o'
  /\ StructField_of o = StructField_of o'.

Definition same_visit (v v' : value) : Prop :=
  forall tag ro addr o o',
    same_opts o o' ->
    effect (visit Includable IncludableMap tag v ro addr o)
    = effect (visit Includable IncludableMap tag v' ro addr o').

Definition same_elems (l l' : list value) : Prop :=
  forall tag ro,
    (forall addr,
        effect (array_loop Includable IncludableMap tag ro addr l)
        = effect (array_loop Includable IncludableMap tag ro addr l'))
    /\ (forall set h,
           effect (slice_loop Includable IncludableMap tag ro set l h)
           = effect (slice_loop Includable IncludableMap tag ro set l' h)).

(** The contributions of the entries of a mapping owned as [o] says. *)
Definition contribs (o : option visitOpts) (ro : bool)
    (es : list (value * value)) : list (option Z) :=
  map (fun e => value_of (entry_contrib Includable IncludableMap
                            (includeMap_of IncludableMap o) ro
                            (StructField_of o) e)) es.

Definition same_entries (es es' : list (value * value)) : Prop :=
  forall o ro, xor_opts (contribs o ro es) = xor_opts (contribs o ro es').

Definition same_fields (fs fs' : list (StructField value)) : Prop :=
  forall tag t parent parent' ro addr,
    (forall flags n,
        includeMap_of IncludableMap
          (Some (mkVisitOpts flags (Some parent) n))
        = includeMap_of IncludableMap
            (Some (mkVisitOpts flags (Some parent') n))) ->
    effect (field_loop Includable IncludableMap tag t parent ro addr fs)
    = effect (field_loop Includable IncludableMap tag t parent' ro addr fs').

End Sameness.

(** A program in which the type T leaves out its member Skip. *)
Definition skip_Includable : string -> option HashInclude :=
  fun t =>
    if String.eqb t "T"
    then Some (fun n _ => (negb (String.eqb n "Skip"), None))
    else None.

(** The XOR of the sub-digests of some values, when [Hash(x, nil)] succeeds
    on each of them. *)
Definition xor_subdigests
    (Includable : string -> option HashInclude)
    (IncludableMap : string -> option HashIncludeMap)
    (l : list value) : option Z :=
  xor_opts (map (fun x => value_of (subHash Includable IncludableMap x)) l).

(** Scenario A: the same mapping, enumerated in two orders. *)
Definition mapAB : value := VMap [(str "A", int64 1); (str "B", int64 2)].
Definition mapBA : value := VMap [(str "B", int64 2); (str "A", int64 1)].
(** The mapping with the values exchanged across the entries. *)
Definition mapAB_exchanged : value :=
  VMap [(str "A", int64 2); (str "B", int64 1)].

(** Scenario C: a struct whose member UUID is annotated "ignore". *)
Definition named (uuid : string) : value :=
  VStruct "" [mkField "Name" [] (str "x");
              mkField "UUID" [("hash", "ignore")] (str uuid)].

(** A struct whose member X is annotated "ignore" under the key "custom",
    and a mapping with such a struct as a value. *)
Definition customS (x : string) : value :=
  VStruct "" [mkField "X" [("custom", "ignore")] (str x)].
Definition customMap (x : string) : value := VMap [(str "k", customS x)].
Definition customOpts : option HashOptions :=
  Some (mkHashOptions None "custom").

(** A struct of type T with a mapping, under two enumerations. *)
Definition recordAB : value :=
  VStruct "T" [mkField "M" [] mapAB; mkField "Skip" [] (str "s")].
Definition recordBA : value :=
  VStruct "T" [mkField "M" [] mapBA; mkField "Skip" [] (str "s")].

(** Two structs that differ only in the content of an unexported member. *)
Definition with_unexported (secret : string) : value :=
  VStruct "" [mkField "Foo" [] (str "bar");
              mkField "unexported" [] (str secret)].

(** * Properties *)

(** ** The default hasher *)

(** The check value of CRC-64/XZ, the parameters of Go's [crc64] with the
    ECMA table. *)
Example crc64_check_value :
  Sum64 (Write (Reset crc64_New) (bytes_of_string "123456789"))
  = 0x995DC9BBDF1939FA.
Proof. vm_compute. reflexivity. Qed.

(** ** The monad *)

Lemma bind_ret_l {A B} (a : A) (k : A -> M B) : bind (ret a) k = k a.
Proof. unfold bind, ret. destruct (k a). reflexivity. Qed.

Lemma bind_assoc {A B C} (m : M A) (k : A -> M B) (k' : B -> M C) :
  bind (bind m k) k' = bind m (fun a => bind (k a) k').
Proof.
  destruct m as [tr [a| |]]; simpl; try reflexivity.
  destruct (k a) as [tr1 [b| |]]; simpl; try reflexivity.
  destruct (k' b) as [tr2 r]. now rewrite app_assoc.
Qed.

Lemma bind_ext_l {A B} (m m' : M A) (k : A -> M B) :
  m = m' -> bind m k = bind m' k.
Proof. now intros ->. Qed.

Lemma bind_ext {A B} (m : M A) (k k' : A -> M B) :
  (forall a, k a = k' a) -> bind m k = bind m k'.
Proof.
  intros E. destruct m as [tr [a| |]]; simpl; try reflexivity.
  now rewrite E.
Qed.

(** ** Induction on values *)

(** The induction principle of the nested type: the hypothesis holds of every
    element, entry and member of a composite value. *)
Lemma value_ind' (P : value -> Prop)
  (HBool : forall b, P (VBool b))
  (HNum : forall t n, P (VNum t n))
  (HString : forall s, P (VString s))
  (HArray : forall l, Forall P l -> P (VArray l))
  (HSlice : forall l, Forall P l -> P (VSlice l))
  (HMap : forall es, Forall (fun e => P (fst e) /\ P (snd e)) es -> P (VMap es))
  (HStruct : forall t fs, Forall (fun f => P (Val f)) fs -> P (VStruct t fs))
  (HPtrNil : P (VPtr None))
  (HPtr : forall x, P x -> P (VPtr (Some x)))
  (HIfaceNil : P (VInterface None))
  (HIface : forall x, P x -> P (VInterface (Some x)))
  (HChan : P VChan)
  (HFunc : P VFunc)
  (HUnsafe : P VUnsafePointer) :
  forall v, P v.
Proof.
  fix IH 1. intros [b|t n|s|l|l|es|t fs|[x|]|[x|]| | |].
  - apply HBool.
  - apply HNum.
  - apply HString.
  - apply HArray. induction l as [|x l IHl]; constructor; [apply IH|exact IHl].
  - apply HSlice. induction l as [|x l IHl]; constructor; [apply IH|exact IHl].
  - apply HMap. induction es as [|[k x] es IHes]; constructor;
      [split; apply IH|exact IHes].
  - apply HStruct. induction fs as [|[n tg x] fs IHfs]; constructor;
      [apply IH|exact IHfs].
  - apply HPtr, IH.
  - exact HPtrNil.
  - apply HIface, IH.
  - exact HIfaceNil.
  - exact HChan.
  - exact HFunc.
  - exact HUnsafe.
Qed.

(** ** Results *)

Lemma snd_bind {A B} (m : M A) (k : A -> M B) :
  snd (bind m k)
  = match snd m with
    | Ok a => snd (k a)
    | Err e => Err e
    | Panic => Panic
    end.
Proof.
  destruct m as [tr [a| |]]; simpl; try reflexivity. now destruct (k a).
Qed.

Lemma snd_bind_passes {A B} (m : M A) (k : A -> M B) :
  passes m -> exists a, snd (bind m k) = snd (k a).
Proof. intros [a E]. exists a. now rewrite snd_bind, E. Qed.

Lemma snd_finish_err h m e : snd m = Err e -> snd (finish h m) = Err e.
Proof. destruct m as [tr r]. simpl. now intros ->. Qed.

Lemma value_of_true {A} (m : M A) a : value_of m = Some a -> snd m = Ok a.
Proof.
  unfold value_of, effect. destruct (snd m); simpl; congruence.
Qed.

(** ** Effects *)

Lemma effect_bind {A B} (m : M A) (k : A -> M B) :
  effect (bind m k)
  = match effect m with
    | Some (a, w) =>
        match effect (k a) with
        | Some (b, w') => Some (b, w ++ w')
        | None => None
        end
    | None => None
    end.
Proof.
  destruct m as [tr [a| |]]; unfold effect; simpl; try reflexivity.
  destruct (k a) as [tr' [b| |]]; simpl; try reflexivity.
  unfold writes. now rewrite filter_app.
Qed.

Lemma writes_hooks tr : writes (hooks tr) = [].
Proof.
  unfold writes, hooks. induction tr as [|[p|t f v|t f k v] tr IH]; simpl; auto.
Qed.

Lemma feed_writes tr : forall h, feed h tr = feed h (writes tr).
Proof.
  unfold feed, writes.
  induction tr as [|[p|t f v|t f k v] tr IH]; intros h; simpl; auto.
Qed.

Lemma Reset_feed tr : forall h, Reset (feed h tr) = Reset h.
Proof.
  unfold feed.
  induction tr as [|[p|t f v|t f k v] tr IH]; intros h; simpl; auto.
  now rewrite IH.
Qed.

(** The sub-digest of a walk depends on its effect only, and its own
    effect has no [Write]. *)
Lemma effect_finish h (m : M unit) :
  effect (finish h m)
  = match effect m with
    | Some (_, w) => Some (Sum64 (feed (Reset h) w), [])
    | None => None
    end.
Proof.
  destruct m as [tr [[]| |]]; unfold effect; simpl; try reflexivity.
  now rewrite writes_hooks, <- feed_writes.
Qed.

(** *** Silent computations *)

Lemma silent_effect {A} (m : M A) :
  silent m -> effect m = option_map (fun a => (a, [])) (value_of m).
Proof.
  unfold silent, value_of, effect. intros ->. now destruct (snd m).
Qed.

Lemma silent_bind {A B} (m : M A) (k : A -> M B) :
  silent m -> (forall a, silent (k a)) -> silent (bind m k).
Proof.
  unfold silent. destruct m as [tr [a| |]]; simpl; intros Hm Hk; auto.
  specialize (Hk a). destruct (k a) as [tr' r]. simpl in *.
  unfold writes in *. now rewrite filter_app, Hm, Hk.
Qed.

Lemma silent_ret {A} (a : A) : silent (ret a).
Proof. reflexivity. Qed.

Lemma silent_Interface_ ro : silent (Interface_ ro).
Proof. now destruct ro. Qed.

Lemma silent_finish h m : silent (finish h m).
Proof. destruct m as [tr r]. apply writes_hooks. Qed.

Lemma silent_consult ev r : is_write ev = false -> silent (consult ev r).
Proof.
  intros E. unfold consult. apply silent_bind.
  - unfold silent, emit, writes. simpl. now rewrite E.
  - intros _. destruct r as [incl [e|]]; reflexivity.
Qed.

Lemma value_of_bind {A B} (m : M A) (k : A -> M B) :
  value_of (bind m k)
  = match value_of m with
    | Some a => value_of (k a)
    | None => None
    end.
Proof.
  unfold value_of. rewrite effect_bind.
  destruct (effect m) as [[a w]|]; simpl; [|reflexivity].
  now destruct (effect (k a)) as [[b w']|].
Qed.



(** ** XOR over unordered collections *)

Lemma lxor_swap a b x : Z.lxor a (Z.lxor b x) = Z.lxor b (Z.lxor a x).
Proof. now rewrite <- !Z.lxor_assoc, (Z.lxor_comm a b). Qed.

Lemma xor_opts_perm l l' : Permutation l l' -> xor_opts l = xor_opts l'.
Proof.
  induction 1 as [|c l l' _ IH|c c' l|l l' l'' _ IH _ IH']; simpl.
  - reflexivity.
  - now rewrite IH.
  - destruct c as [a|], c' as [b|], (xor_opts l) as [x|]; try reflexivity.
    f_equal. apply lxor_swap.
  - now rewrite IH.
Qed.

Lemma items_flat (es : list (value * value)) :
  Permutation (items es) (flat_map (fun e => [fst e; snd e]) es).
Proof.
  unfold items. induction es as [|[k x] es IH]; simpl; [constructor|].
  constructor. etransitivity; [symmetry; apply Permutation_middle|].
  now constructor.
Qed.

(** ** The visitor, loop by loop *)

Section VisitorEquations.

Variable Includable : string -> option HashInclude.
Variable IncludableMap : string -> option HashIncludeMap.

Local Abbreviation visit := (visit Includable IncludableMap).
Local Abbreviation Hash := (Hash Includable IncludableMap).
Local Abbreviation subHash := (subHash Includable IncludableMap).
Local Abbreviation array_loop := (array_loop Includable IncludableMap).
Local Abbreviation map_loop := (map_loop Includable IncludableMap).
Local Abbreviation field_loop := (field_loop Includable IncludableMap).
Local Abbreviation visit_field := (visit_field Includable IncludableMap).
Local Abbreviation slice_loop := (slice_loop Includable IncludableMap).

Lemma visit_VArray tag l ro addr opts :
  visit tag (VArray l) ro addr opts = array_loop tag ro addr l.
Proof.
  simpl. induction l as [|x l IH]; simpl; [reflexivity|].
  now rewrite IH.
Qed.

Lemma visit_VMap tag es ro addr opts :
  visit tag (VMap es) ro addr opts
  = h <- map_loop (includeMap_of IncludableMap opts) ro (StructField_of opts)
          es 0 ;;
    binary_Write TUint64 h.
Proof.
  simpl. f_equal. generalize 0.
  induction es as [|[k x] es IH]; intros h; simpl; [reflexivity|].
  unfold map_hook.
  destruct (includeMap_of IncludableMap opts) as [[t f]|];
    apply bind_ext; intros [|]; auto;
    repeat (apply bind_ext; intros); auto.
Qed.

Lemma visit_VStruct tag tname fs ro addr opts :
  visit tag (VStruct tname fs) ro addr opts
  = Interface_ ro ;;; field_loop tag tname (VStruct tname fs) ro addr fs.
Proof.
  simpl. apply bind_ext. intros _.
  generalize (VStruct tname fs) as parent. intros parent.
  induction fs as [|fld fs IH]; simpl; [reflexivity|].
  unfold visit_field, field_hook.
  destruct (CanSet _ _ || _); [|now rewrite bind_ret_l].
  destruct (String.eqb _ "ignore"); [now rewrite bind_ret_l|].
  rewrite bind_assoc. apply bind_ext. intros [|].
  - apply bind_ext. intros _. apply IH.
  - now rewrite bind_ret_l.
Qed.

Lemma visit_VSlice tag l ro addr opts :
  visit tag (VSlice l) ro addr opts
  = h <- slice_loop tag ro (is_set opts) l 0 ;;
    if is_set opts then binary_Write TUint64 h else ret tt.
Proof.
  simpl. f_equal. generalize 0.
  induction l as [|x l IH]; intros h; simpl; [reflexivity|].
  destruct (is_set opts); repeat (apply bind_ext; intros); auto.
Qed.

(** *** What the visitor does not look at *)

Lemma CanSet_blank ro addr name :
  CanSet (ro || negb (IsExported name)) addr || negb (String.eqb name "_")
  = negb (String.eqb name "_").
Proof.
  destruct (String.eqb_spec name "_") as [->|N]; simpl.
  - unfold CanSet. now rewrite orb_true_r, andb_false_r.
  - apply orb_true_r.
Qed.

(** Whether a value is addressable changes nothing. *)
Lemma visit_addr_irrel v :
  forall tag ro a a' opts, visit tag v ro a opts = visit tag v ro a' opts.
Proof.
  induction v as [b|t n|s|l IHl|l IHl|es IHes|t fs IHfs| |x IHx| |x IHx| | |]
    using value_ind'; intros tag ro a a' opts; try reflexivity.
  - rewrite !visit_VArray.
    induction IHl as [|x l Hx _ IH]; simpl; [reflexivity|].
    now rewrite (Hx tag ro a a' None), IH.
  - rewrite !visit_VStruct. apply bind_ext. intros _.
    generalize (VStruct t fs). intros parent.
    induction IHfs as [|f fs Hf _ IH]; simpl; [reflexivity|].
    rewrite IH. f_equal. unfold visit_field.
    rewrite !CanSet_blank. destruct (negb _); [|reflexivity].
    destruct (String.eqb _ "ignore"); [reflexivity|].
    apply bind_ext. intros [|]; [apply Hf|reflexivity].
Qed.

(** Of its options, the visitor looks at the set flag, at the capability of
    the owning struct and at the member's name. *)
Lemma visit_opts_ext v :
  forall tag ro addr o o',
    is_set o = is_set o' ->
    includeMap_of IncludableMap o = includeMap_of IncludableMap o' ->
    StructField_of o = StructField_of o' ->
    visit tag v ro addr o = visit tag v ro addr o'.
Proof.
  induction v as [b|t n|s|l IHl|l IHl|es IHes|t fs IHfs| |x IHx| |x IHx| | |]
    using value_ind'; intros tag ro addr o o' Es Em Ef; try reflexivity.
  - now rewrite !visit_VSlice, Es.
  - now rewrite !visit_VMap, Em, Ef.
  - simpl. now apply IHx.
  - simpl. now apply IHx.
Qed.

Lemma visit_wrap ws v tag :
  visit tag (wrap ws v) false false None = visit tag v false false None.
Proof.
  induction ws as [|[|] ws IH]; simpl; [reflexivity| |exact IH].
  rewrite <- IH. apply visit_addr_irrel.
Qed.

Lemma Hash_visit_eq v v' opts :
  visit (tag_of opts) v false false None
  = visit (tag_of opts) v' false false None ->
  Hash v opts = Hash v' opts.
Proof.
  unfold Hash, tag_of. destruct opts as [[h tg]|]; simpl; intros E;
    now rewrite E.
Qed.

(** *** The unordered loops *)

Local Abbreviation entry_contrib := (entry_contrib Includable IncludableMap).

Lemma silent_subHash x : silent (subHash x).
Proof. apply silent_finish. Qed.

Lemma silent_map_hook im ro field k x : silent (map_hook im ro field k x).
Proof.
  destruct im as [[t f]|]; simpl; [|apply silent_ret].
  apply silent_bind; [apply silent_Interface_|].
  intros _. now apply silent_consult.
Qed.

Lemma silent_map_loop im ro field es : forall h, silent (map_loop im ro field es h).
Proof.
  induction es as [|[k x] es IH]; intros h; simpl; [apply silent_ret|].
  apply silent_bind; [apply silent_map_hook|]. intros [|]; [|apply IH].
  repeat (apply silent_bind;
          [first [apply silent_Interface_|apply silent_subHash]|intros ?]).
  apply IH.
Qed.

Lemma value_of_map_loop_cons im ro field e es h :
  value_of (map_loop im ro field (e :: es) h)
  = match value_of (entry_contrib im ro field e) with
    | Some c => value_of (map_loop im ro field es (Z.lxor h c))
    | None => None
    end.
Proof.
  destruct e as [k x]. unfold entry_contrib. simpl.
  rewrite ?value_of_bind.
  destruct (value_of (map_hook im ro field k x)) as [[|]|]; [| |reflexivity].
  - rewrite ?value_of_bind.
    destruct (value_of (Interface_ ro)) as [[]|]; [|reflexivity].
    rewrite ?value_of_bind.
    destruct (value_of (subHash k)) as [kh|]; [|reflexivity].
    rewrite ?value_of_bind.
    destruct (value_of (subHash x)) as [vh|]; [|reflexivity].
    change (value_of (ret (Z.lxor kh vh))) with (Some (Z.lxor kh vh)).
    cbv beta iota. now rewrite Z.lxor_assoc.
  - change (value_of (ret 0)) with (Some 0).
    cbv beta iota. now rewrite Z.lxor_0_r.
Qed.

(** The running total of the loop over the entries of a mapping is the XOR
    of the contributions of the entries. *)
Lemma value_of_map_loop im ro field es :
  forall h,
    value_of (map_loop im ro field es h)
    = option_map (Z.lxor h)
        (xor_opts (map (fun e => value_of (entry_contrib im ro field e)) es)).
Proof.
  induction es as [|e es IH]; intros h.
  - cbn [map xor_opts option_map map_loop]. now rewrite Z.lxor_0_r.
  - rewrite value_of_map_loop_cons. cbn [map xor_opts].
    destruct (value_of (entry_contrib im ro field e)) as [c|]; [|reflexivity].
    rewrite IH. destruct (xor_opts _) as [X|]; [|reflexivity]. simpl.
    now rewrite Z.lxor_assoc.
Qed.

(** The effect of the visitor on a mapping: one [Write] of the total. *)
Lemma effect_visit_VMap tag es ro addr opts :
  effect (visit tag (VMap es) ro addr opts)
  = option_map (fun X => (tt, [EvWrite (le_bytes 8 X)]))
      (xor_opts
         (map (fun e => value_of (entry_contrib (includeMap_of IncludableMap opts)
                                   ro (StructField_of opts) e)) es)).
Proof.
  rewrite visit_VMap, effect_bind, silent_effect by apply silent_map_loop.
  rewrite value_of_map_loop.
  destruct (xor_opts _) as [X|]; reflexivity.
Qed.

(** *** From the walk to the result of [Hash] *)

Lemma returned_Hash v opts :
  returned (Hash v opts)
  = match visit (tag_of opts) v false false None with
    | (tr, Ok _) => Returns (Sum64 (feed (Reset (hasher_of opts)) tr)) None
    | (_, Err e) => Returns 0 (Some e)
    | (_, Panic) => Panics
    end.
Proof.
  unfold Hash, tag_of, hasher_of.
  destruct opts as [[[h|] tg]|]; simpl;
    destruct (visit _ v false false None) as [tr [[]| |]]; reflexivity.
Qed.

Lemma returned_Hash_ok v opts w :
  effect (visit (tag_of opts) v false false None) = Some (tt, w) ->
  returned (Hash v opts)
  = Returns (Sum64 (feed (Reset (hasher_of opts)) w)) None.
Proof.
  rewrite returned_Hash. unfold effect.
  destruct (visit _ v false false None) as [tr [[]| |]]; simpl;
    try discriminate.
  intros [= <-]. now rewrite <- feed_writes.
Qed.

(** Two calls whose walks have the same effect agree on the digest, if they
    work with the same tag key and with hashers that are the same once
    reset. *)
Lemma Hash_same_effect v v' opts opts' :
  tag_of opts' = tag_of opts ->
  Reset (hasher_of opts') = Reset (hasher_of opts) ->
  effect (visit (tag_of opts) v false false None)
  = effect (visit (tag_of opts) v' false false None) ->
  same_digest (returned (Hash v opts)) (returned (Hash v' opts')).
Proof.
  intros Et Eh. rewrite !returned_Hash, Et, Eh. unfold effect.
  destruct (visit _ v false false None) as [tr [[]|e|]],
           (visit _ v' false false None) as [tr' [[]|e'|]];
    simpl; try discriminate; auto.
  intros [= E]. now rewrite (feed_writes tr), (feed_writes tr'), E.
Qed.

(** [Hash(x, nil)] followed by the test of its error is [subHash]. *)
Lemma subHash_Hash x :
  subHash x
  = (consulted (Hash x None),
     match returned (Hash x None) with
     | Returns d None => Ok d
     | Returns _ (Some e) => Err e
     | Panics => Panic
     end).
Proof.
  unfold subHash, finish, Hash. simpl.
  destruct (visit "hash" x false false None) as [tr [[]| |]]; reflexivity.
Qed.

(** At the top level no hook decides on the entries of a mapping: each
    contributes the XOR of the sub-digests of its key and of its value. *)
Lemma top_entries_items es :
  xor_opts (map (fun e => value_of (entry_contrib None false "" e)) es)
  = xor_subdigests Includable IncludableMap (items es).
Proof.
  unfold xor_subdigests.
  rewrite (xor_opts_perm _ _ (Permutation_map _ (items_flat es))).
  induction es as [|[k x] es IH]; [reflexivity|].
  cbn [map flat_map app xor_opts fst snd]. rewrite <- IH.
  unfold entry_contrib. cbn [map_hook fst snd].
  rewrite bind_ret_l. rewrite ?value_of_bind.
  change (value_of (Interface_ false)) with (Some tt). cbv beta iota.
  rewrite ?value_of_bind.
  destruct (value_of (subHash k)) as [kh|]; [|reflexivity].
  rewrite ?value_of_bind.
  destruct (value_of (subHash x)) as [vh|]; [|reflexivity].
  change (value_of (ret (Z.lxor kh vh))) with (Some (Z.lxor kh vh)).
  cbv beta iota. destruct (xor_opts _) as [X|]; [|reflexivity].
  now rewrite Z.lxor_assoc.
Qed.

Lemma effect_top_VMap tag es :
  effect (visit tag (VMap es) false false None)
  = option_map (fun X => (tt, [EvWrite (le_bytes 8 X)]))
      (xor_subdigests Includable IncludableMap (items es)).
Proof. now rewrite effect_visit_VMap, <- top_entries_items. Qed.

(** *** The loop over the members of a struct *)

Lemma field_loop_app tag t parent ro addr pre post :
  field_loop tag t parent ro addr (pre ++ post)
  = field_loop tag t parent ro addr pre ;;;
    field_loop tag t parent ro addr post.
Proof.
  induction pre as [|f pre IH]; cbn [app field_loop].
  - now rewrite bind_ret_l.
  - now rewrite IH, bind_assoc.
Qed.

(** Of the owning struct the visitor looks at the type only. *)
Lemma field_loop_parent tag t fs1 fs2 ro addr l :
  field_loop tag t (VStruct t fs1) ro addr l
  = field_loop tag t (VStruct t fs2) ro addr l.
Proof.
  induction l as [|f l IH]; simpl; [reflexivity|].
  rewrite IH. f_equal. unfold visit_field.
  destruct (CanSet _ _ || _); [|reflexivity].
  destruct (String.eqb _ "ignore"); [reflexivity|].
  apply bind_ext. intros [|]; [|reflexivity].
  apply visit_opts_ext; reflexivity.
Qed.

Lemma visit_field_ignore tag t parent ro addr f :
  Tag_Get (Tag f) tag = "ignore" ->
  visit_field tag t parent ro addr f = ret tt.
Proof.
  intros E. unfold visit_field. rewrite E. simpl.
  now destruct (CanSet _ _ || _).
Qed.

(** A member annotated "ignore" under the walker's tag key is as good as
    absent. *)
Lemma visit_ignored_member tag t pre f post ro addr opts :
  Tag_Get (Tag f) tag = "ignore" ->
  visit tag (VStruct t (pre ++ f :: post)) ro addr opts
  = visit tag (VStruct t (pre ++ post)) ro addr opts.
Proof.
  intros E. rewrite !visit_VStruct. apply bind_ext. intros _.
  rewrite (field_loop_parent tag t _ (pre ++ post)).
  rewrite !field_loop_app. apply bind_ext. intros _. simpl.
  now rewrite visit_field_ignore, bind_ret_l.
Qed.

(** Of the annotation of a member the visitor reads the part under the
    walker's tag key only. *)
Lemma visit_annotation_key tag t pre n tg tg' x post ro addr opts :
  Tag_Get tg tag = Tag_Get tg' tag ->
  visit tag (VStruct t (pre ++ mkField n tg x :: post)) ro addr opts
  = visit tag (VStruct t (pre ++ mkField n tg' x :: post)) ro addr opts.
Proof.
  intros E. rewrite !visit_VStruct. apply bind_ext. intros _.
  rewrite (field_loop_parent tag t _ (pre ++ mkField n tg' x :: post)).
  rewrite !field_loop_app. apply bind_ext. intros _.
  cbn [field_loop]. apply bind_ext_l.
  unfold visit_field, field_hook. cbn [Name Tag Val]. now rewrite E.
Qed.

(** *** Loops over a list split in two *)

Lemma array_loop_app tag ro addr pre post :
  array_loop tag ro addr (pre ++ post)
  = array_loop tag ro addr pre ;;; array_loop tag ro addr post.
Proof.
  induction pre as [|x pre IH]; cbn [app array_loop].
  - now rewrite bind_ret_l.
  - now rewrite IH, bind_assoc.
Qed.

Lemma slice_loop_app tag ro set pre post :
  forall h,
    slice_loop tag ro set (pre ++ post) h
    = h' <- slice_loop tag ro set pre h ;; slice_loop tag ro set post h'.
Proof.
  induction pre as [|x pre IH]; intros h; cbn [app slice_loop].
  - now rewrite bind_ret_l.
  - destruct set; rewrite ?bind_assoc; apply bind_ext; intros ?;
      rewrite ?bind_assoc; try apply bind_ext; intros; apply IH.
Qed.

Lemma map_loop_app im ro field pre post :
  forall h,
    map_loop im ro field (pre ++ post) h
    = h' <- map_loop im ro field pre h ;; map_loop im ro field post h'.
Proof.
  induction pre as [|[k x] pre IH]; intros h; cbn [app map_loop].
  - now rewrite bind_ret_l.
  - rewrite bind_assoc. apply bind_ext. intros [|]; [|apply IH].
    rewrite ?bind_assoc. apply bind_ext. intros _.
    rewrite ?bind_assoc. apply bind_ext. intros kh.
    rewrite ?bind_assoc. apply bind_ext. intros vh. apply IH.
Qed.

(** *** The traversal that reaches a value without a rule *)

Lemma reaches_visit tag v ro addr o k :
  reaches Includable IncludableMap tag v ro addr o k ->
  snd (visit tag v ro addr o) = Err (ErrUnknownKind k).
Proof.
  induction 1 as
    [ | | | | tag x ro addr o k _ IH | tag x ro addr o k _ IH
    | tag pre x post ro addr o k Hpre _ IH
    | tag pre x post ro addr o k Hset Hpre _ IH
    | tag pre x post addr o k Hset Hpre _ IH
    | tag pre k0 x post addr o k Hpre Hhook _ IH
    | tag pre k0 x post addr o k Hpre Hhook Hkey _ IH
    | tag t pre f post addr o k Hpre Hname Htag Hhook _ IH ];
    try reflexivity; try exact IH.
  - rewrite visit_VArray, array_loop_app.
    destruct (snd_bind_passes _ (fun _ => array_loop tag ro addr (x :: post)) Hpre)
      as [_ ->].
    cbn [array_loop]. now rewrite snd_bind, IH.
  - rewrite visit_VSlice, Hset, snd_bind, slice_loop_app.
    destruct (snd_bind_passes _
                (fun h' => slice_loop tag ro false (x :: post) h') Hpre)
      as [h' ->].
    cbn [slice_loop]. now rewrite snd_bind, IH.
  - rewrite visit_VSlice, Hset, snd_bind, slice_loop_app.
    destruct (snd_bind_passes _
                (fun h' => slice_loop tag false true (x :: post) h') Hpre)
      as [h' ->].
    cbn [slice_loop Interface_]. rewrite bind_ret_l, snd_bind.
    unfold subHash. now rewrite (snd_finish_err _ _ _ IH).
  - rewrite visit_VMap, snd_bind, map_loop_app.
    destruct (snd_bind_passes _
                (fun h' => map_loop (includeMap_of IncludableMap o) false
                             (StructField_of o) ((k0, x) :: post) h') Hpre)
      as [h' ->].
    cbn [map_loop]. rewrite snd_bind, (value_of_true _ _ Hhook).
    cbn [Interface_]. rewrite bind_ret_l, snd_bind.
    unfold subHash. now rewrite (snd_finish_err _ _ _ IH).
  - rewrite visit_VMap, snd_bind, map_loop_app.
    destruct (snd_bind_passes _
                (fun h' => map_loop (includeMap_of IncludableMap o) false
                             (StructField_of o) ((k0, x) :: post) h') Hpre)
      as [h' ->].
    cbn [map_loop]. rewrite snd_bind, (value_of_true _ _ Hhook).
    cbn [Interface_]. rewrite bind_ret_l, snd_bind.
    destruct Hkey as [kh ->]. rewrite snd_bind.
    unfold subHash. now rewrite (snd_finish_err _ _ _ IH).
  - rewrite visit_VStruct. cbn [Interface_]. rewrite bind_ret_l.
    rewrite field_loop_app.
    destruct (snd_bind_passes _
                (fun _ => field_loop tag t (VStruct t (pre ++ f :: post)) false
                            addr (f :: post)) Hpre)
      as [_ ->].
    cbn [field_loop]. rewrite snd_bind. unfold visit_field.
    rewrite Hname, Htag, orb_true_r. cbn [negb orb].
    rewrite snd_bind, (value_of_true _ _ Hhook). cbn [orb] in IH.
    now rewrite IH.
Qed.

Lemma opts_after_Hash_nil v : opts_after (Hash v None) = None.
Proof.
  unfold Hash. simpl. now destruct (visit "hash" v false false None).
Qed.

Lemma opts_after_Hash v o :
  opts_after (Hash v (Some o))
  = Some (mkHashOptions
            (Some (feed (Reset (hasher_of (Some o)))
                     (fst (visit (tag_of (Some o)) v false false None))))
            (tag_of (Some o))).
Proof.
  unfold Hash. cbn [tag_of].
  destruct (visit _ v false false None) as [tr r].
  now destruct o as [[h|] tg].
Qed.

End VisitorEquations.

(** ** Indirection and absent references *)

Section Indirection.

Variable Includable : string -> option HashInclude.
Variable IncludableMap : string -> option HashIncludeMap.

Local Abbreviation visit := (visit Includable IncludableMap).
Local Abbreviation Hash := (Hash Includable IncludableMap).

(** C6: wrapping a value in references and boxed dynamic values, to any
    depth, changes nothing of what [Hash] does: the digest, the error, the
    options after the call and the hooks consulted are those of the value
    itself. *)
Theorem Hash_indirection_transparent (ws : list wrapper) (v : value)
    (opts : option HashOptions) :
  Hash (wrap ws v) opts = Hash v opts.
Proof. apply Hash_visit_eq, visit_wrap. Qed.

(** C3, as the code has it: an absent reference, behind any number of
    references and boxed dynamic values, hashes like a zero of type int8,
    whatever the kind it would refer to. *)
Theorem Hash_nil_reference (ws : list wrapper) (opts : option HashOptions) :
  Hash (wrap ws (VPtr None)) opts = Hash (int8 0) opts
  /\ Hash (wrap ws (VInterface None)) opts = Hash (int8 0) opts.
Proof.
  split; apply Hash_visit_eq; rewrite visit_wrap; reflexivity.
Qed.

(** C9, as the code has it: after a call with options [o], the caller's
    options hold the tag key the call worked with (the default in place of an
    empty one) and the hasher it worked with (a new CRC-64 in place of a nil
    one), reset and then fed the writes of the walk. *)
Theorem Hash_options_after (v : value) (o : HashOptions) :
  let h := match Hasher o with Some h => h | None => crc64_New end in
  let tg := if String.eqb (TagName o) "" then "hash" else TagName o in
  opts_after (Hash v (Some o))
  = Some (mkHashOptions
            (Some (feed (Reset h) (fst (visit tg v false false None)))) tg).
Proof.
  unfold Hash. simpl.
  destruct (visit _ v false false None) as [tr r]. reflexivity.
Qed.

End Indirection.

(** C3 as stated fails: a nil pointer to an int64 is written as one zero
    byte, the int64 zero as eight. *)
Lemma nil_pointer_is_not_int64_zero :
  returned (Hash0 (VPtr None) None) <> returned (Hash0 (int64 0) None).
Proof. vm_compute. discriminate. Qed.

(** C9 as stated fails: options left at their zero values come back with the
    defaults written into them. *)
Lemma Hash_overwrites_zero_options :
  opts_after (Hash0 (int64 7) (Some (mkHashOptions None "")))
  <> Some (mkHashOptions None "").
Proof.
  intros E. apply (f_equal (option_map TagName)) in E.
  vm_compute in E. discriminate.
Qed.

(** C2 fails on the code: the content of an unexported member other than
    [_] is written to the hasher like that of an exported one. *)
Lemma Hash_unexported_member_affects_digest :
  returned (Hash0 (with_unexported "baz") None)
  <> returned (Hash0 (with_unexported "bang") None).
Proof. vm_compute. discriminate. Qed.

(** ** Mappings *)

Section Mappings.

Variable Includable : string -> option HashInclude.
Variable IncludableMap : string -> option HashIncludeMap.

Local Abbreviation visit := (visit Includable IncludableMap).
Local Abbreviation Hash := (Hash Includable IncludableMap).

(** C5: the digest of a mapping does not depend on the order in which its
    entries are enumerated.  When the traversal fails it fails in either
    order, though not always at the same entry. *)
Theorem Hash_map_order_independent (es es' : list (value * value))
    (opts : option HashOptions) :
  Permutation es es' ->
  same_digest (returned (Hash (VMap es) opts))
              (returned (Hash (VMap es') opts)).
Proof.
  intros P. apply Hash_same_effect; try reflexivity.
  rewrite !effect_top_VMap. unfold xor_subdigests, items.
  erewrite xor_opts_perm; [reflexivity|].
  apply Permutation_map, Permutation_app; now apply Permutation_map.
Qed.

(** C1, as the code has it: the total written for a mapping is the XOR of
    the sub-digests of all its keys and values, so that mappings with the
    same keys and values, however paired, have the same digest. *)
Theorem Hash_map_flat_xor (es es' : list (value * value)) (X : Z)
    (opts : option HashOptions) :
  xor_subdigests Includable IncludableMap (items es) = Some X ->
  Permutation (items es) (items es') ->
  returned (Hash (VMap es) opts)
  = Returns (Sum64 (Write (Reset (hasher_of opts)) (le_bytes 8 X))) None
  /\ returned (Hash (VMap es') opts) = returned (Hash (VMap es) opts).
Proof.
  intros HX P.
  assert (HX' : xor_subdigests Includable IncludableMap (items es') = Some X).
  { rewrite <- HX. unfold xor_subdigests. symmetry.
    now apply xor_opts_perm, Permutation_map. }
  rewrite (returned_Hash_ok _ _ (VMap es) opts [EvWrite (le_bytes 8 X)]),
          (returned_Hash_ok _ _ (VMap es') opts [EvWrite (le_bytes 8 X)]).
  - split; reflexivity.
  - now rewrite effect_top_VMap, HX'.
  - now rewrite effect_top_VMap, HX.
Qed.

End Mappings.

Lemma Hash_map_order_independent_witness :
  same_digest (returned (Hash0 mapAB None)) (returned (Hash0 mapBA None)).
Proof.
  apply (Hash_map_order_independent no_Includable no_IncludableMap).
  apply perm_swap.
Defined.

Lemma Hash_map_flat_xor_witness :
  returned (Hash0 mapAB None)
  = Returns (Sum64 (Write (Reset crc64_New) (le_bytes 8 13452651425706279025)))
      None
  /\ returned (Hash0 mapAB_exchanged None) = returned (Hash0 mapAB None).
Proof.
  apply (Hash_map_flat_xor no_Includable no_IncludableMap
           [(str "A", int64 1); (str "B", int64 2)]
           [(str "A", int64 2); (str "B", int64 1)]
           13452651425706279025 None).
  - vm_compute. reflexivity.
  - unfold items. simpl. do 2 constructor. apply perm_swap.
Defined.

(** C1 as stated fails: exchanging the values of two entries leaves the
    digest as it was. *)
Lemma exchanged_values_same_digest :
  ~ returned (Hash0 mapAB None) <> returned (Hash0 mapAB_exchanged None).
Proof. intros N. apply N. vm_compute. reflexivity. Qed.

(** ** Annotations *)

Section Annotations.

Variable Includable : string -> option HashInclude.
Variable IncludableMap : string -> option HashIncludeMap.

Local Abbreviation visit := (visit Includable IncludableMap).
Local Abbreviation Hash := (Hash Includable IncludableMap).
Local Abbreviation subHash := (subHash Includable IncludableMap).

(** C7: a member annotated "ignore" under the tag key in use contributes
    nothing, whatever its value: the iteration of the member loop on it
    ends at once, with no write and no hook consulted; so the walk of the
    struct, hence also the result of [Hash], stays the same when the value
    of the member changes, and is that of the struct without the member,
    hooks consulted included. *)
Theorem Hash_ignored_member (tag t n : string) (tg : StructTag)
    (pre post : list (StructField value)) :
  Tag_Get tg tag = "ignore" ->
  forall x x' : value,
    (forall parent ro addr,
        visit_field Includable IncludableMap tag t parent ro addr
          (mkField n tg x) = ret tt)
    /\ (forall ro addr o,
        visit tag (VStruct t (pre ++ mkField n tg x :: post)) ro addr o
        = visit tag (VStruct t (pre ++ mkField n tg x' :: post)) ro addr o
        /\ visit tag (VStruct t (pre ++ mkField n tg x :: post)) ro addr o
           = visit tag (VStruct t (pre ++ post)) ro addr o)
    /\ (forall opts,
           tag_of opts = tag ->
           Hash (VStruct t (pre ++ mkField n tg x :: post)) opts
           = Hash (VStruct t (pre ++ mkField n tg x' :: post)) opts
           /\ Hash (VStruct t (pre ++ mkField n tg x :: post)) opts
              = Hash (VStruct t (pre ++ post)) opts).
Proof.
  intros E x x'.
  assert (V : forall y ro addr o,
             visit tag (VStruct t (pre ++ mkField n tg y :: post)) ro addr o
             = visit tag (VStruct t (pre ++ post)) ro addr o).
  { intros y ro addr o. now apply visit_ignored_member. }
  split; [|split].
  - intros parent ro addr. now apply visit_field_ignore.
  - intros ro addr o. split; [now rewrite !V|apply V].
  - intros opts <-. split; apply Hash_visit_eq; [now rewrite !V|apply V].
Qed.

(** The call [Hash(x, nil)] of the entry point, with the test of its error
    that follows it: the hooks it consults, and its digest or its failure. *)
Definition Hash_nil (x : value) : M Z :=
  (consulted (Hash x None),
   match returned (Hash x None) with
   | Returns d None => Ok d
   | Returns _ (Some e) => Err e
   | Panics => Panic
   end).

(** The running total of a mapping, with the sub-digests taken from the
    entry point called with nil options: each entry the hook retains adds
    the sub-digest of its key and that of its value. *)
Fixpoint nil_map_total (includeMap : option (string * HashIncludeMap))
    (ro : bool) (field : string) (l : list (value * value)) (h : Z) : M Z :=
  match l with
  | [] => ret h
  | (k, x) :: l' =>
      incl <- map_hook includeMap ro field k x ;;
      if incl then
        Interface_ ro ;;;
        kh <- Hash_nil k ;;
        vh <- Hash_nil x ;;
        nil_map_total includeMap ro field l' (Z.lxor (Z.lxor h kh) vh)
      else nil_map_total includeMap ro field l' h
  end.

(** The running total of a set, likewise. *)
Fixpoint nil_set_total (ro : bool) (l : list value) (h : Z) : M Z :=
  match l with
  | [] => ret h
  | x :: l' =>
      Interface_ ro ;;;
      hc <- Hash_nil x ;;
      nil_set_total ro l' (Z.lxor h hc)
  end.

Lemma subHash_Hash_nil x : subHash x = Hash_nil x.
Proof. apply subHash_Hash. Qed.

Lemma map_loop_nil im ro field es :
  forall h,
    map_loop Includable IncludableMap im ro field es h
    = nil_map_total im ro field es h.
Proof.
  induction es as [|[k x] es IH]; intros h; cbn [map_loop nil_map_total];
    [reflexivity|].
  apply bind_ext. intros [|]; [|apply IH].
  apply bind_ext. intros _. rewrite !subHash_Hash_nil.
  apply bind_ext. intros kh. apply bind_ext. intros vh. apply IH.
Qed.

Lemma set_loop_nil tag ro l :
  forall h,
    slice_loop Includable IncludableMap tag ro true l h
    = nil_set_total ro l h.
Proof.
  induction l as [|x l IH]; intros h; cbn [slice_loop nil_set_total];
    [reflexivity|].
  apply bind_ext. intros _. rewrite subHash_Hash_nil.
  apply bind_ext. intros hc. apply IH.
Qed.

(** C10: with nil options the entry point works with a new CRC-64 and the
    tag key "hash"; the walk of a mapping, and of a slice taken as a set,
    by a walker with any tag key, is the loop that takes each sub-digest
    from the entry point called with nil options.  So the tag key of the
    caller has no part in the digest of a mapping; an annotation under the
    key "hash" on a struct that is the value of an entry is honoured
    whatever the options; and of the annotations of a struct that is the
    value of an entry, or an element of a set, only the part under "hash"
    counts, so that one under the caller's own key is not honoured. *)
Theorem subdigests_use_default_options :
  (forall x,
      returned (Hash x None)
      = match visit "hash" x false false None with
        | (tr, Ok _) => Returns (Sum64 (feed crc64_New tr)) None
        | (_, Err e) => Returns 0 (Some e)
        | (_, Panic) => Panics
        end
      /\ consulted (Hash x None)
         = hooks (fst (visit "hash" x false false None)))
  /\ (forall tag es ro addr o,
         visit tag (VMap es) ro addr o
         = h <- nil_map_total (includeMap_of IncludableMap o) ro
                  (StructField_of o) es 0 ;;
           binary_Write TUint64 h)
  /\ (forall tag l ro addr o,
         is_set o = true ->
         visit tag (VSlice l) ro addr o
         = h <- nil_set_total ro l 0 ;; binary_Write TUint64 h)
  /\ (forall hasher tg es,
         returned (Hash (VMap es) (Some (mkHashOptions hasher tg)))
         = returned (Hash (VMap es) (Some (mkHashOptions hasher "hash")))
         /\ consulted (Hash (VMap es) (Some (mkHashOptions hasher tg)))
            = consulted (Hash (VMap es) (Some (mkHashOptions hasher "hash"))))
  /\ (forall opts es1 es2 k t n tg pre post x x',
         Tag_Get tg "hash" = "ignore" ->
         Hash (VMap (es1 ++ (k, VStruct t (pre ++ mkField n tg x :: post))
                     :: es2)) opts
         = Hash (VMap (es1 ++ (k, VStruct t (pre ++ mkField n tg x' :: post))
                       :: es2)) opts)
  /\ (forall opts es1 es2 k t n tg tg' pre post x,
         Tag_Get tg "hash" = Tag_Get tg' "hash" ->
         Hash (VMap (es1 ++ (k, VStruct t (pre ++ mkField n tg x :: post))
                     :: es2)) opts
         = Hash (VMap (es1 ++ (k, VStruct t (pre ++ mkField n tg' x :: post))
                       :: es2)) opts)
  /\ (forall tag l1 l2 t n tg tg' pre post x ro addr o,
         is_set o = true ->
         Tag_Get tg "hash" = Tag_Get tg' "hash" ->
         visit tag (VSlice (l1 ++ VStruct t (pre ++ mkField n tg x :: post)
                            :: l2)) ro addr o
         = visit tag (VSlice (l1 ++ VStruct t (pre ++ mkField n tg' x :: post)
                              :: l2)) ro addr o).
Proof.
  split; [|split; [|split; [|split; [|split; [|split]]]]].
  - intros x. split; [exact (returned_Hash _ _ x None)|].
    unfold Hash. cbn [TagName String.eqb].
    now destruct (visit "hash" x false false None).
  - intros. now rewrite visit_VMap, map_loop_nil.
  - intros tag l ro addr o E. now rewrite visit_VSlice, E, set_loop_nil.
  - intros hasher tg es.
    assert (E : visit (tag_of (Some (mkHashOptions hasher tg))) (VMap es)
                  false false None
                = visit "hash" (VMap es) false false None)
      by now rewrite !visit_VMap.
    unfold Hash. cbn [TagName Hasher]. cbn [tag_of TagName] in E.
    rewrite E. cbn [String.eqb].
    destruct (visit "hash" (VMap es) false false None) as [tr r].
    split; reflexivity.
  - intros opts es1 es2 k t n tg pre post x x' E.
    apply Hash_visit_eq. rewrite !visit_VMap. apply bind_ext_l.
    rewrite !map_loop_app. apply bind_ext. intros h.
    cbn [map_loop].
    apply bind_ext. intros [|]; [|reflexivity].
    apply bind_ext. intros _. apply bind_ext. intros kh.
    unfold subHash.
    now rewrite !(visit_ignored_member _ _ "hash" t pre _ post) by exact E.
  - intros opts es1 es2 k t n tg tg' pre post x E.
    apply Hash_visit_eq. rewrite !visit_VMap. apply bind_ext_l.
    rewrite !map_loop_app. apply bind_ext. intros h.
    cbn [map_loop].
    apply bind_ext. intros [|]; [|reflexivity].
    apply bind_ext. intros _. apply bind_ext. intros kh.
    unfold subHash.
    now rewrite (visit_annotation_key _ _ "hash" t pre n tg tg' x post)
      by exact E.
  - intros tag l1 l2 t n tg tg' pre post x ro addr o Es E.
    rewrite !visit_VSlice, Es. apply bind_ext_l.
    rewrite !slice_loop_app. apply bind_ext. intros h.
    cbn [slice_loop]. apply bind_ext. intros _.
    unfold subHash.
    now rewrite (visit_annotation_key _ _ "hash" t pre n tg tg' x post)
      by exact E.
Qed.

End Annotations.

Lemma Hash_ignored_member_witness :
  Hash0 (named "u1") None = Hash0 (named "u2") None.
Proof.
  apply (proj2 (proj2 (Hash_ignored_member no_Includable no_IncludableMap
                         "hash" "" "UUID" [("hash", "ignore")]
                         [mkField "Name" [] (str "x")] []
                         eq_refl (str "u1") (str "u2"))) None eq_refl).
Defined.

(** The custom tag key is honoured on the struct itself and not on the
    struct as the value of an entry of a mapping. *)
Lemma subdigests_use_default_options_witness :
  Hash0 (VMap [(str "k", named "u1")]) customOpts
  = Hash0 (VMap [(str "k", named "u2")]) customOpts.
Proof.
  apply (proj1 (proj2 (proj2 (proj2 (proj2
           (subdigests_use_default_options no_Includable no_IncludableMap)))))
           customOpts [] [] (str "k") "" "UUID" [("hash", "ignore")]
           [mkField "Name" [] (str "x")] [] (str "u1") (str "u2") eq_refl).
Defined.

Lemma custom_tag_key_not_honoured_in_entries :
  returned (Hash0 (customS "u1") customOpts)
  = returned (Hash0 (customS "u2") customOpts)
  /\ returned (Hash0 (customMap "u1") customOpts)
     <> returned (Hash0 (customMap "u2") customOpts).
Proof. split; vm_compute; [reflexivity|discriminate]. Qed.

(** ** Values without a rule *)

Section Unsupported.

Variable Includable : string -> option HashInclude.
Variable IncludableMap : string -> option HashIncludeMap.

Local Abbreviation Hash := (Hash Includable IncludableMap).

(** C8: when the depth-first traversal reaches a value of a kind for which
    the visitor has no rule, [Hash] returns the zero digest and the error
    that names this kind. *)
Theorem Hash_unsupported_kind (v : value) (opts : option HashOptions)
    (k : reflect.Kind) :
  reaches Includable IncludableMap (tag_of opts) v false false None k ->
  returned (Hash v opts) = Returns 0 (Some (ErrUnknownKind k)).
Proof.
  intros R. apply reaches_visit in R. rewrite returned_Hash.
  destruct (visit _ _ _ v false false None) as [tr r]. simpl in R.
  now rewrite R.
Qed.

End Unsupported.

Lemma Hash_unsupported_kind_witness :
  returned (Hash0 withCallback None)
  = Returns 0 (Some (ErrUnknownKind reflect.Func)).
Proof.
  apply (Hash_unsupported_kind no_Includable no_IncludableMap).
  apply reach_ptr.
  apply (reach_member _ _ "hash" "" [mkField "Name" [] (str "x")]
           (mkField "Handlers" [] (VSlice [int64 1; VFunc])) []);
    try reflexivity.
  - exists tt. reflexivity.
  - apply (reach_slice _ _ "hash" [int64 1] VFunc []).
    + reflexivity.
    + exists 0. reflexivity.
    + apply reach_func.
Defined.

(** ** Determinism *)

Lemma effect_consult ev r :
  is_write ev = false ->
  effect (consult ev r)
  = match r with
    | (_, Some _) => None
    | (incl, None) => Some (incl, [])
    end.
Proof.
  intros E. unfold consult, emit, bind, fail, ret, effect, writes. simpl.
  destruct r as [incl [e|]]; simpl; now rewrite ?E.
Qed.

Lemma effect_value_of {A} (m m' : M A) :
  effect m = effect m' -> value_of m = value_of m'.
Proof. unfold value_of. now intros ->. Qed.

Lemma tag_of_nonempty opts : String.eqb (tag_of opts) "" = false.
Proof.
  destruct opts as [[h tg]|]; simpl; [|reflexivity].
  now destruct (String.eqb tg "") eqn:E.
Qed.

Section Determinism.

Variable Includable : string -> option HashInclude.
Variable IncludableMap : string -> option HashIncludeMap.

Hypothesis hooks_ok : hooks_ignore_order Includable IncludableMap.

Local Abbreviation visit := (visit Includable IncludableMap).
Local Abbreviation Hash := (Hash Includable IncludableMap).
Local Abbreviation subHash := (subHash Includable IncludableMap).
Local Abbreviation array_loop := (array_loop Includable IncludableMap).
Local Abbreviation map_loop := (map_loop Includable IncludableMap).
Local Abbreviation field_loop := (field_loop Includable IncludableMap).
Local Abbreviation slice_loop := (slice_loop Includable IncludableMap).
Local Abbreviation entry_contrib := (entry_contrib Includable IncludableMap).
Local Abbreviation same_opts := (same_opts IncludableMap).
Local Abbreviation same_visit := (same_visit Includable IncludableMap).
Local Abbreviation same_elems := (same_elems Includable IncludableMap).
Local Abbreviation same_entries := (same_entries Includable IncludableMap).
Local Abbreviation same_fields := (same_fields Includable IncludableMap).

Lemma same_opts_refl o : same_opts o o.
Proof. repeat split. Qed.

Lemma same_visit_subHash x x' :
  same_visit x x' -> effect (subHash x) = effect (subHash x').
Proof.
  intros S. unfold subHash. rewrite !effect_finish.
  now rewrite (S "hash" false false None None (same_opts_refl None)).
Qed.

Lemma includeMap_of_hook o t f :
  includeMap_of IncludableMap o = Some (t, f) -> IncludableMap t = Some f.
Proof.
  unfold includeMap_of.
  destruct o as [[fl [[| | | | | |t' fs| | | | |]|] n]|]; simpl;
    try discriminate.
  destruct (IncludableMap t') as [f'|] eqn:E; [|discriminate].
  now intros [= <- <-].
Qed.

Lemma same_entry o ro k k' x x' :
  reorder k k' -> reorder x x' -> same_visit k k' -> same_visit x x' ->
  value_of (entry_contrib (includeMap_of IncludableMap o) ro (StructField_of o) (k, x))
  = value_of (entry_contrib (includeMap_of IncludableMap o) ro (StructField_of o) (k', x')).
Proof.
  intros Rk Rx Sk Sx. unfold entry_contrib. cbn [fst snd].
  rewrite ?value_of_bind.
  assert (Eh : value_of (map_hook (includeMap_of IncludableMap o) ro (StructField_of o) k x)
               = value_of (map_hook (includeMap_of IncludableMap o) ro (StructField_of o)
                             k' x')).
  { unfold map_hook. destruct (includeMap_of IncludableMap o) as [[t f]|] eqn:E;
      [|reflexivity].
    apply includeMap_of_hook in E.
    rewrite ?value_of_bind. destruct (value_of (Interface_ ro)); [|reflexivity].
    apply effect_value_of. rewrite !effect_consult by reflexivity.
    now rewrite (proj2 hooks_ok t f _ k k' x x' E Rk Rx). }
  rewrite Eh.
  destruct (value_of (map_hook _ ro _ k' x')) as [[|]|]; try reflexivity.
  rewrite ?value_of_bind. destruct (value_of (Interface_ ro)); [|reflexivity].
  rewrite ?value_of_bind.
  rewrite (effect_value_of _ _ (same_visit_subHash k k' Sk)).
  destruct (value_of (subHash k')) as [kh|]; [|reflexivity].
  rewrite ?value_of_bind.
  now rewrite (effect_value_of _ _ (same_visit_subHash x x' Sx)).
Qed.

Lemma reorder_same :
  (forall v v', reorder v v' -> same_visit v v')
  /\ (forall l l', reorder_list l l' -> same_elems l l')
  /\ (forall es es', reorder_entries es es' -> same_entries es es')
  /\ (forall fs fs', reorder_fields fs fs' -> same_fields fs fs').
Proof.
  apply reorder_mutind.
  - (* reflexivity *)
    intros v tag ro addr o o' (Es & Em & Ef).
    now rewrite (visit_opts_ext _ _ v tag ro addr o o' Es Em Ef).
  - (* transitivity *)
    intros u v w _ IH1 _ IH2 tag ro addr o o' S.
    now rewrite (IH1 tag ro addr o o (same_opts_refl o)), (IH2 tag ro addr o o' S).
  - (* arrays *)
    intros l l' _ IH tag ro addr o o' _. rewrite !visit_VArray. apply IH.
  - (* slices *)
    intros l l' _ IH tag ro addr o o' (Es & _ & _).
    rewrite !visit_VSlice, !effect_bind, Es.
    now rewrite (proj2 (IH tag ro) (is_set o') 0).
  - (* mappings *)
    intros es es' _ IH tag ro addr o o' (_ & Em & Ef).
    rewrite !effect_visit_VMap.
    rewrite Em, Ef. apply f_equal, (IH o' ro).
  - (* structs *)
    intros t fs fs' _ IH tag ro addr o o' _.
    rewrite !visit_VStruct, !effect_bind.
    now rewrite (IH tag t (VStruct t fs) (VStruct t fs') ro addr
                   (fun _ _ => eq_refl)).
  - (* pointers *)
    intros x x' _ IH tag ro addr o o' S. apply IH, S.
  - (* interfaces *)
    intros x x' _ IH tag ro addr o o' S. apply IH, S.
  - (* no element *)
    intros tag ro. split; reflexivity.
  - (* one more element *)
    intros x x' l l' _ IHx _ IHl tag ro. split.
    + intros addr. cbn [array_loop]. rewrite !effect_bind.
      now rewrite (IHx tag ro addr None None (same_opts_refl None)),
        (proj1 (IHl tag ro) addr).
    + intros [|] h; cbn [slice_loop]; rewrite !effect_bind.
      * destruct (effect (Interface_ ro)) as [[[] w]|]; [|reflexivity].
        rewrite ?effect_bind, (same_visit_subHash x x' IHx).
        destruct (effect (subHash x')) as [[hc w']|]; [|reflexivity].
        now rewrite (proj2 (IHl tag ro) true).
      * now rewrite (IHx tag ro true None None (same_opts_refl None)),
          (proj2 (IHl tag ro) false h).
  - (* entries, permuted *)
    intros es es' P o ro. now apply xor_opts_perm, Permutation_map.
  - (* one more entry *)
    intros k k' x x' es es' Rk IHk Rx IHx _ IHes o ro.
    specialize (IHes o ro). unfold contribs in *. cbn [map xor_opts].
    now rewrite (same_entry o ro k k' x x' Rk Rx IHk IHx), IHes.
  - (* entries, transitivity *)
    intros es es' es'' _ IH1 _ IH2 o ro. now rewrite (IH1 o ro), (IH2 o ro).
  - (* no member *)
    intros tag t parent parent' ro addr _. reflexivity.
  - (* one more member *)
    intros n tg x x' fs fs' Rx IHx _ IHfs tag t parent parent' ro addr Ep.
    cbn [field_loop]. rewrite !effect_bind.
    rewrite (IHfs tag t parent parent' ro addr Ep).
    assert (E : effect (visit_field Includable IncludableMap tag t parent ro addr
                          (mkField n tg x))
                = effect (visit_field Includable IncludableMap tag t parent' ro
                            addr (mkField n tg x'))); [|now rewrite E].
    unfold visit_field. cbn [Name Tag Val].
    destruct (CanSet _ _ || _); [|reflexivity].
    destruct (String.eqb _ "ignore"); [reflexivity|].
    rewrite !effect_bind.
    assert (Eh : effect (field_hook Includable t (mkField n tg x))
                 = effect (field_hook Includable t (mkField n tg x'))).
    { unfold field_hook. cbn [Name Val].
      destruct (Includable t) as [f|] eqn:E; [|reflexivity].
      rewrite !effect_consult by reflexivity.
      now rewrite (proj1 hooks_ok t f n x x' E Rx). }
    rewrite Eh.
    destruct (effect (field_hook Includable t (mkField n tg x')))
      as [[[|] w]|]; try reflexivity.
    rewrite (IHx tag _ addr _
               (Some (mkVisitOpts (field_flags (Tag_Get tg tag))
                        (Some parent') n))); [reflexivity|].
    repeat split. apply Ep.
Qed.

(** C4: two calls of [Hash] with the same options, on the same value, agree
    on the digest, also when the mappings in the value are enumerated in
    another order in the second call, and whether the second call is given
    the options as they were or as the first call left them.  Hooks are
    taken not to tell one enumeration from another. *)
Theorem Hash_deterministic (v v' : value) (opts opts' : option HashOptions) :
  reorder v v' ->
  opts' = opts \/ opts' = opts_after (Hash v opts) ->
  same_digest (returned (Hash v opts)) (returned (Hash v' opts')).
Proof.
  intros R Ho.
  assert (E : tag_of opts' = tag_of opts
              /\ Reset (hasher_of opts') = Reset (hasher_of opts)).
  { destruct Ho as [->| ->]; [split; reflexivity|].
    destruct opts as [o|];
      [|rewrite opts_after_Hash_nil; split; reflexivity].
    rewrite opts_after_Hash. cbn [tag_of hasher_of TagName].
    split.
    - pose proof (tag_of_nonempty (Some o)) as N. cbn [tag_of] in N.
      now rewrite N.
    - rewrite Reset_feed. now destruct o as [[h|] tg]. }
  destruct E as [Et Eh]. apply Hash_same_effect; auto.
  apply (proj1 reorder_same v v' R), same_opts_refl.
Qed.

End Determinism.

Lemma Hash_deterministic_witness :
  same_digest
    (returned (Hash skip_Includable no_IncludableMap recordAB
                 (Some (mkHashOptions None ""))))
    (returned (Hash skip_Includable no_IncludableMap recordBA
                 (opts_after (Hash skip_Includable no_IncludableMap recordAB
                                (Some (mkHashOptions None "")))))).
Proof.
  apply (Hash_deterministic skip_Includable no_IncludableMap).
  - split.
    + intros t f n x x' E _. unfold skip_Includable in E.
      destruct (String.eqb t "T"); [|discriminate].
      injection E as <-. reflexivity.
    + intros t f n k k' x x' E. discriminate E.
  - apply reorder_struct, fields_cons.
    + apply reorder_map, entries_perm, perm_swap.
    + apply fields_cons; [apply reorder_refl|apply fields_nil].
  - right. reflexivity.
Defined.

(** * Further properties of the visitor *)

From Stdlib Require Import Lia.

(** ** Vocabulary *)

(** What a computation lets the hasher and the caller see: its [Write]s and
    how it ends. *)
Definition obs {A} (m : M A) : list event * res A := (writes (fst m), snd m).

(** A value without the references and boxed dynamic values around it. *)
Fixpoint strip (v : value) : value :=
  match v with
  | VPtr (Some x) => strip x
  | VInterface (Some x) => strip x
  | _ => v
  end.

(** Whether the visitor, once it has resolved the indirections, is on a
    slice or on a mapping: the two cases that read [opts]. *)
Definition reads_opts (v : value) : bool :=
  match strip v with
  | VSlice _ | VMap _ => true
  | _ => false
  end.

Definition is_slice (v : value) : bool :=
  match strip v with
  | VSlice _ => true
  | _ => false
  end.

(** A struct of type T with a member the hook of T leaves out. *)
Definition recordSkip (s : string) : value :=
  VStruct "T" [mkField "Name" [] (str "x"); mkField "Skip" [] (str s)].

(** A program in which the hook of the type T fails on the member Bad. *)
Definition failing_Includable : string -> option HashInclude :=
  fun t =>
    if String.eqb t "T"
    then Some (fun n _ =>
                 (true, if String.eqb n "Bad" then Some (ErrHook "bad")
                        else None))
    else None.

Definition recordBad : value :=
  VStruct "T" [mkField "Name" [] (str "x"); mkField "Bad" [] (int64 1);
               mkField "Rest" [] VFunc].

(** The elements of a sequence, those of nested arrays and slices in
    place of the arrays and slices themselves. *)
Fixpoint leaves (v : value) : list value :=
  match v with
  | VArray l | VSlice l => flat_map leaves l
  | _ => [v]
  end.

(** All the bytes written in a trace, in order. *)
Definition stream (tr : list event) : list byte :=
  flat_map (fun e => match e with EvWrite p => p | _ => [] end) tr.

(** A hasher for which what counts is the bytes written, not how they are
    split into calls of [Write]. *)
Definition streaming (h : Hash64) : Prop :=
  (forall s, hWrite h s [] = s)
  /\ (forall s p q, hWrite h (hWrite h s p) q = hWrite h s (p ++ q)).

(** The strings of a list, one after the other. *)
Definition joined (ss : list string) : string :=
  fold_right String.append "" ss.

(** The number of bytes the visitor writes for a number of a given type, if
    it writes it: [int] and [uint] are widened to 64 bits. *)
Definition written_width (t : numeric) : option nat :=
  match t with
  | TInt | TUint => Some 8%nat
  | TUintptr | TComplex128 => None
  | _ => binary_size t
  end.

(** A member the visitor treats like an element of an array: exported, and
    annotated neither "ignore" nor "set" under the tag key. *)
Definition plain_member (tag : string) (f : StructField value) : Prop :=
  IsExported (Name f) = true
  /\ String.eqb (Tag_Get (Tag f) tag) "ignore" = false
  /\ String.eqb (Tag_Get (Tag f) tag) "set" = false.



(** Hooks that return no error. *)
Definition hooks_never_fail
    (Includable : string -> option HashInclude)
    (IncludableMap : string -> option HashIncludeMap) : Prop :=
  (forall t h n x, Includable t = Some h -> snd (h n x) = None)
  /\ (forall t g n k x, IncludableMap t = Some g -> snd (g n k x) = None).

(** A struct with a member annotated "set". *)
Definition tagged (l : list value) : value :=
  VStruct "" [mkField "Tags" [("hash", "set")] (VSlice l)].

(** A program in which the type T leaves out the entries of its mappings
    whose key is the string "tmp". *)
Definition tmp_IncludableMap : string -> option HashIncludeMap :=
  fun t =>
    if String.eqb t "T"
    then Some (fun _ k _ =>
                 (match k with
                  | VString s => negb (String.eqb s "tmp")
                  | _ => true
                  end, None))
    else None.

Definition recordMap (es : list (value * value)) : value :=
  VStruct "T" [mkField "M" [] (VMap es)].

(** ** Observations *)

Lemma obs_bind {A B} (m m' : M A) (k k' : A -> M B) :
  obs m = obs m' -> (forall a, obs (k a) = obs (k' a)) ->
  obs (bind m k) = obs (bind m' k').
Proof.
  unfold obs. intros E Hk.
  pose proof (f_equal fst E) as Ew. pose proof (f_equal snd E) as Er.
  destruct m as [tr [a| |]], m' as [tr' [a'| |]]; simpl in *;
    try discriminate; try (rewrite Ew; congruence).
  injection Er as <-. specialize (Hk a).
  pose proof (f_equal fst Hk) as Hw. pose proof (f_equal snd Hk) as Hr.
  destruct (k a) as [t1 r1], (k' a) as [t2 r2]. simpl in *.
  unfold writes in *. now rewrite !filter_app, Ew, Hw, Hr.
Qed.

Lemma obs_bind_r {A B} (m : M A) (k k' : A -> M B) :
  (forall a, obs (k a) = obs (k' a)) -> obs (bind m k) = obs (bind m k').
Proof. now apply obs_bind. Qed.

(** A step that writes nothing and ends normally is not observed. *)
Lemma obs_skip {A B} (m : M A) (a : A) (k : A -> M B) :
  obs m = ([], Ok a) -> obs (bind m k) = obs (k a).
Proof.
  unfold obs. intros E.
  pose proof (f_equal fst E) as Ew. pose proof (f_equal snd E) as Er.
  destruct m as [tr [a'| |]]; simpl in *; try discriminate.
  injection Er as ->. destruct (k a) as [t r]. simpl. unfold writes in *.
  now rewrite filter_app, Ew.
Qed.

Lemma obs_consult ev r :
  is_write ev = false ->
  obs (consult ev r)
  = ([], match r with
         | (_, Some e) => Err e
         | (incl, None) => Ok incl
         end).
Proof.
  intros E. unfold consult, emit, bind, fail, ret, obs, writes. simpl.
  destruct r as [incl [e|]]; simpl; now rewrite ?E.
Qed.

Lemma obs_effect {A} (m m' : M A) : obs m = obs m' -> effect m = effect m'.
Proof.
  unfold obs, effect. intros E.
  now rewrite (f_equal fst E : writes (fst m) = writes (fst m')),
    (f_equal snd E : snd m = snd m').
Qed.

Section Members.

Variable Includable : string -> option HashInclude.
Variable IncludableMap : string -> option HashIncludeMap.

Local Abbreviation visit := (visit Includable IncludableMap).
Local Abbreviation Hash := (Hash Includable IncludableMap).
Local Abbreviation subHash := (subHash Includable IncludableMap).
Local Abbreviation array_loop := (array_loop Includable IncludableMap).
Local Abbreviation map_loop := (map_loop Includable IncludableMap).
Local Abbreviation field_loop := (field_loop Includable IncludableMap).
Local Abbreviation visit_field := (visit_field Includable IncludableMap).
Local Abbreviation slice_loop := (slice_loop Includable IncludableMap).

(** What [Hash] returns is read off the observation of the walk. *)
Lemma returned_obs v v' opts :
  obs (visit (tag_of opts) v false false None)
  = obs (visit (tag_of opts) v' false false None) ->
  returned (Hash v opts) = returned (Hash v' opts).
Proof.
  rewrite !returned_Hash. unfold obs.
  destruct (visit _ v false false None) as [tr r],
           (visit _ v' false false None) as [tr' r'].
  simpl. intros E.
  pose proof (f_equal fst E) as Ew. pose proof (f_equal snd E) as Er.
  simpl in *. subst r'. destruct r as [[]| |]; try reflexivity.
  now rewrite (feed_writes tr), (feed_writes tr'), Ew.
Qed.

(** One member of a struct replaced by another that is observed alike. *)
Lemma obs_member tag t pre f f' post ro addr o :
  (forall fs, obs (visit_field tag t (VStruct t fs) ro addr f)
              = obs (visit_field tag t (VStruct t fs) ro addr f')) ->
  obs (visit tag (VStruct t (pre ++ f :: post)) ro addr o)
  = obs (visit tag (VStruct t (pre ++ f' :: post)) ro addr o).
Proof.
  intros E. rewrite !visit_VStruct. apply obs_bind_r. intros _.
  rewrite (field_loop_parent _ _ tag t (pre ++ f' :: post) (pre ++ f :: post)).
  rewrite !field_loop_app. apply obs_bind_r. intros _.
  cbn [field_loop]. apply obs_bind; [apply E|reflexivity].
Qed.

(** One member of a struct that is not observed. *)
Lemma obs_member_skip tag t pre f post ro addr o :
  (forall fs, obs (visit_field tag t (VStruct t fs) ro addr f)
              = ([], Ok tt)) ->
  obs (visit tag (VStruct t (pre ++ f :: post)) ro addr o)
  = obs (visit tag (VStruct t (pre ++ post)) ro addr o).
Proof.
  intros E. rewrite !visit_VStruct. apply obs_bind_r. intros _.
  rewrite (field_loop_parent _ _ tag t (pre ++ post) (pre ++ f :: post)).
  rewrite !field_loop_app. apply obs_bind_r. intros _.
  cbn [field_loop]. exact (obs_skip _ tt _ (E _)).
Qed.

(** One member replaced by another on which the loop does the same. *)
Lemma visit_member_eq tag t pre f f' post ro addr o :
  (forall fs, visit_field tag t (VStruct t fs) ro addr f
              = visit_field tag t (VStruct t fs) ro addr f') ->
  visit tag (VStruct t (pre ++ f :: post)) ro addr o
  = visit tag (VStruct t (pre ++ f' :: post)) ro addr o.
Proof.
  intros E. rewrite !visit_VStruct. apply bind_ext. intros _.
  rewrite (field_loop_parent _ _ tag t (pre ++ f' :: post) (pre ++ f :: post)).
  rewrite !field_loop_app. apply bind_ext. intros _.
  cbn [field_loop]. now rewrite E.
Qed.

Lemma visit_member_skip tag t pre f post ro addr o :
  (forall fs, visit_field tag t (VStruct t fs) ro addr f = ret tt) ->
  visit tag (VStruct t (pre ++ f :: post)) ro addr o
  = visit tag (VStruct t (pre ++ post)) ro addr o.
Proof.
  intros E. rewrite !visit_VStruct. apply bind_ext. intros _.
  rewrite (field_loop_parent _ _ tag t (pre ++ post) (pre ++ f :: post)).
  rewrite !field_loop_app. apply bind_ext. intros _.
  cbn [field_loop]. now rewrite E, bind_ret_l.
Qed.

(** The visitor reads its options on a slice and on a mapping only. *)
Lemma visit_opts_unread v :
  reads_opts v = false ->
  forall tag ro addr o o', visit tag v ro addr o = visit tag v ro addr o'.
Proof.
  induction v as [b|t n|s|l IHl|l IHl|es IHes|t fs IHfs| |x IHx| |x IHx| | |]
    using value_ind'; intros R tag ro addr o o'; try reflexivity;
    try discriminate R.
  - simpl. now apply IHx.
  - simpl. now apply IHx.
Qed.

(** On anything but a slice it does not read the flags. *)
Lemma visit_flags_unread v :
  is_slice v = false ->
  forall tag ro addr fl fl' parent n,
    visit tag v ro addr (Some (mkVisitOpts fl parent n))
    = visit tag v ro addr (Some (mkVisitOpts fl' parent n)).
Proof.
  induction v as [b|t n|s|l IHl|l IHl|es IHes|t fs IHfs| |x IHx| |x IHx| | |]
    using value_ind'; intros R tag ro addr fl fl' parent m; try reflexivity;
    try discriminate R.
  - simpl. now apply IHx.
  - simpl. now apply IHx.
Qed.

(** X1: a member named [_] contributes nothing, whatever its value and its
    annotation: the result of [Hash], hooks consulted included, is that of
    the struct without the member. *)
Theorem Hash_blank_member (t : string) (tg : StructTag) (x : value)
    (pre post : list (StructField value)) (opts : option HashOptions) :
  Hash (VStruct t (pre ++ mkField "_" tg x :: post)) opts
  = Hash (VStruct t (pre ++ post)) opts.
Proof.
  apply Hash_visit_eq, visit_member_skip. intros fs.
  unfold visit_field. now rewrite CanSet_blank.
Qed.

(** X2: a member that the hook [HashInclude] of the struct's type leaves
    out (it returns false and no error) gives the digest, and the error, of
    the struct without the member, as a member annotated "ignore" does. *)
Theorem Hash_excluded_member (t n : string) (tg : StructTag) (x : value)
    (pre post : list (StructField value)) (opts : option HashOptions)
    (h : HashInclude) :
  Includable t = Some h ->
  h n x = (false, None) ->
  returned (Hash (VStruct t (pre ++ mkField n tg x :: post)) opts)
  = returned (Hash (VStruct t (pre ++ post)) opts).
Proof.
  intros Eh Ex. apply returned_obs, obs_member_skip. intros fs.
  unfold visit_field, field_hook. cbn [Name Tag Val].
  destruct (CanSet _ _ || _); [|reflexivity].
  destruct (String.eqb _ "ignore"); [reflexivity|].
  rewrite Eh, Ex.
  now rewrite (obs_skip _ false _
                 (obs_consult (EvHashInclude t n x) (false, None) eq_refl)).
Qed.

(** X3: when the hook [HashInclude] returns an error for a member that the
    loop gets to (the members before it are visited without failure, and
    the member is neither [_] nor annotated "ignore"), [Hash] returns the
    zero digest and that error, whatever comes after the member. *)
Theorem Hash_hook_error (t : string) (f : StructField value)
    (pre post : list (StructField value)) (opts : option HashOptions)
    (h : HashInclude) (b : bool) (e : error) :
  passes (field_loop (tag_of opts) t (VStruct t (pre ++ f :: post))
            false false pre) ->
  String.eqb (Name f) "_" = false ->
  String.eqb (Tag_Get (Tag f) (tag_of opts)) "ignore" = false ->
  Includable t = Some h ->
  h (Name f) (Val f) = (b, Some e) ->
  returned (Hash (VStruct t (pre ++ f :: post)) opts) = Returns 0 (Some e).
Proof.
  intros Hpre Hname Htag Eh Ef. rewrite returned_Hash.
  assert (E : snd (visit (tag_of opts) (VStruct t (pre ++ f :: post))
                     false false None) = Err e).
  { rewrite visit_VStruct. cbn [Interface_]. rewrite bind_ret_l.
    rewrite field_loop_app.
    destruct (snd_bind_passes _
                (fun _ => field_loop (tag_of opts) t
                            (VStruct t (pre ++ f :: post)) false false
                            (f :: post)) Hpre) as [_ ->].
    cbn [field_loop]. rewrite snd_bind. unfold visit_field, field_hook.
    rewrite Hname, Htag, orb_true_r. cbn [negb orb].
    rewrite snd_bind, Eh, Ef. reflexivity. }
  destruct (visit _ _ false false None) as [tr r]. simpl in E. now rewrite E.
Qed.

(** X4: of the annotation of a member the visitor reads two things: whether
    it is "ignore" and, for a member that is a slice (behind any
    indirection), whether it is "set".  Any other value, and an annotation
    under another key, changes nothing of the result of [Hash]. *)
Theorem Hash_annotation_tests (t n : string) (tg tg' : StructTag) (x : value)
    (pre post : list (StructField value)) (opts : option HashOptions) :
  String.eqb (Tag_Get tg (tag_of opts)) "ignore"
  = String.eqb (Tag_Get tg' (tag_of opts)) "ignore" ->
  String.eqb (Tag_Get tg (tag_of opts)) "set"
  = String.eqb (Tag_Get tg' (tag_of opts)) "set"
  \/ is_slice x = false ->
  Hash (VStruct t (pre ++ mkField n tg x :: post)) opts
  = Hash (VStruct t (pre ++ mkField n tg' x :: post)) opts.
Proof.
  intros Ei Es. apply Hash_visit_eq, visit_member_eq. intros fs.
  unfold visit_field, field_hook. cbn [Name Tag Val]. rewrite <- Ei.
  destruct (CanSet _ _ || _); [|reflexivity].
  destruct (String.eqb (Tag_Get tg (tag_of opts)) "ignore"); [reflexivity|].
  apply bind_ext. intros [|]; [|reflexivity].
  destruct Es as [Es|Es].
  - unfold field_flags. now rewrite Es.
  - now apply visit_flags_unread.
Qed.

(** X5: the visitor reads the context a struct passes down (the set flag,
    the owning struct and the member's name) only when the member resolves
    to a slice or to a mapping; arrays, structs and everything else are
    visited as at the top level. *)
Theorem visit_context_reach (v : value) (tag : string) (ro addr : bool)
    (o : option visitOpts) :
  reads_opts v = false ->
  visit tag v ro addr o = visit tag v ro addr None.
Proof. intros R. now apply visit_opts_unread. Qed.

End Members.

Lemma Hash_excluded_member_witness :
  returned (Hash skip_Includable no_IncludableMap (recordSkip "s") None)
  = returned (Hash skip_Includable no_IncludableMap
                (VStruct "T" [mkField "Name" [] (str "x")]) None).
Proof.
  apply (Hash_excluded_member skip_Includable no_IncludableMap "T" "Skip" []
           (str "s") [mkField "Name" [] (str "x")] [] None
           (fun n _ => (negb (String.eqb n "Skip"), None)));
    reflexivity.
Defined.

Lemma Hash_hook_error_witness :
  returned (Hash failing_Includable no_IncludableMap recordBad None)
  = Returns 0 (Some (ErrHook "bad")).
Proof.
  apply (Hash_hook_error failing_Includable no_IncludableMap "T"
           (mkField "Bad" [] (int64 1)) [mkField "Name" [] (str "x")]
           [mkField "Rest" [] VFunc] None
           (fun n _ => (true, if String.eqb n "Bad" then Some (ErrHook "bad")
                              else None)) true (ErrHook "bad"));
    try reflexivity.
  exists tt. reflexivity.
Defined.

Lemma Hash_annotation_tests_witness :
  Hash0 (VStruct "" [mkField "N" [("hash", "set")] (int64 1)]) None
  = Hash0 (VStruct "" [mkField "N" [("json", "n")] (int64 1)]) None.
Proof.
  apply (Hash_annotation_tests no_Includable no_IncludableMap "" "N"
           [("hash", "set")] [("json", "n")] (int64 1) [] [] None).
  - reflexivity.
  - right. reflexivity.
Defined.

Lemma visit_context_reach_witness :
  visit no_Includable no_IncludableMap "hash" (VArray [VSlice [int64 1]])
    false false (Some (mkVisitOpts visitFlagSet None "N"))
  = visit no_Includable no_IncludableMap "hash" (VArray [VSlice [int64 1]])
      false false None.
Proof.
  apply (visit_context_reach no_Includable no_IncludableMap). reflexivity.
Defined.

(** ** Sequences *)

Lemma bind_ret_tt (m : M unit) : m ;;; ret tt = m.
Proof.
  destruct m as [tr [[]| |]]; simpl; try reflexivity. now rewrite app_nil_r.
Qed.

Section Sequences.

Variable Includable : string -> option HashInclude.
Variable IncludableMap : string -> option HashIncludeMap.

Local Abbreviation visit := (visit Includable IncludableMap).
Local Abbreviation Hash := (Hash Includable IncludableMap).
Local Abbreviation array_loop := (array_loop Includable IncludableMap).
Local Abbreviation map_loop := (map_loop Includable IncludableMap).
Local Abbreviation field_loop := (field_loop Includable IncludableMap).
Local Abbreviation visit_field := (visit_field Includable IncludableMap).
Local Abbreviation slice_loop := (slice_loop Includable IncludableMap).

Lemma array_loop_addr tag ro a a' l :
  array_loop tag ro a l = array_loop tag ro a' l.
Proof.
  induction l as [|x l IH]; cbn [array_loop]; [reflexivity|].
  now rewrite IH, (visit_addr_irrel _ _ x tag ro a a' None).
Qed.

(** The loop over a slice that is not a set is the loop over an array. *)
Lemma slice_loop_plain tag ro l :
  forall h, slice_loop tag ro false l h = array_loop tag ro true l ;;; ret h.
Proof.
  induction l as [|x l IH]; intros h; cbn [slice_loop array_loop].
  - now rewrite bind_ret_l.
  - rewrite bind_assoc. apply bind_ext. intros _. apply IH.
Qed.

Lemma visit_plain_slice tag l ro addr :
  visit tag (VSlice l) ro addr None = array_loop tag ro addr l.
Proof.
  rewrite visit_VSlice. cbn [is_set]. rewrite slice_loop_plain, bind_assoc.
  rewrite (bind_ext _ _ (fun _ => ret tt)) by (intros; reflexivity).
  rewrite bind_ret_tt. apply array_loop_addr.
Qed.

Lemma visit_leaves v :
  forall tag ro addr,
    visit tag v ro addr None = array_loop tag ro addr (leaves v).
Proof.
  assert (L : forall l,
             Forall (fun x => forall tag ro addr,
                         visit tag x ro addr None
                         = array_loop tag ro addr (leaves x)) l ->
             forall tag ro addr,
               array_loop tag ro addr l
               = array_loop tag ro addr (flat_map leaves l)).
  { induction 1 as [|x l Hx _ IH]; intros tag ro addr; [reflexivity|].
    cbn [array_loop flat_map]. now rewrite array_loop_app, Hx, IH. }
  induction v as [b|t n|s|l IHl|l IHl|es IHes|t fs IHfs| |x IHx| |x IHx| | |]
    using value_ind'; intros tag ro addr;
    try (cbn [leaves array_loop]; now rewrite bind_ret_tt).
  - rewrite visit_VArray. cbn [leaves]. now apply L.
  - rewrite visit_plain_slice. cbn [leaves]. now apply L.
Qed.

(** X6: at the top level, and as an element of an array or of a slice, an
    array or a slice hashes like the sequence of its elements with nested
    arrays and slices flattened: neither the grouping of the elements nor
    the difference between array and slice enters the result of [Hash]. *)
Theorem Hash_flattens_sequences (v v' : value) (opts : option HashOptions) :
  leaves v = leaves v' -> Hash v opts = Hash v' opts.
Proof.
  intros E. apply Hash_visit_eq. now rewrite !visit_leaves, E.
Qed.

(** *** Numbers *)

Lemma le_bytes_mod sz :
  forall n n',
    n mod 2 ^ (8 * Z.of_nat sz) = n' mod 2 ^ (8 * Z.of_nat sz) ->
    le_bytes sz n = le_bytes sz n'.
Proof.
  induction sz as [|sz IH]; intros n n' E; [reflexivity|].
  cbn [le_bytes].
  replace (8 * Z.of_nat (S sz)) with (8 + 8 * Z.of_nat sz) in E by lia.
  rewrite Z.pow_add_r in E by lia.
  rewrite !Z.rem_mul_r in E by lia.
  pose proof (Z.mod_pos_bound n (2 ^ 8) eq_refl) as B.
  pose proof (Z.mod_pos_bound n' (2 ^ 8) eq_refl) as B'.
  change 255 with (Z.ones 8). rewrite !Z.land_ones by lia.
  rewrite !Z.shiftr_div_pow2 by lia.
  assert (E8 : n mod 2 ^ 8 = n' mod 2 ^ 8) by lia.
  rewrite E8. f_equal. apply IH. lia.
Qed.

Lemma visit_numeric_width t n sz :
  written_width t = Some sz ->
  visit_numeric false t n = emit (EvWrite (le_bytes sz n)).
Proof. destruct t; simpl; intros [= <-]; reflexivity. Qed.

(** X7: a number enters the digest by its width and its bit pattern alone:
    two numbers of any numeric types that are written in the same number
    of bytes ([int] and [uint] in 8) and are congruent modulo 2 to the
    number of bits have the same result of [Hash], so that signedness and
    type are not hashed. *)
Theorem Hash_numeric_bits (t t' : numeric) (n n' : Z) (sz : nat)
    (opts : option HashOptions) :
  written_width t = Some sz ->
  written_width t' = Some sz ->
  n mod 2 ^ (8 * Z.of_nat sz) = n' mod 2 ^ (8 * Z.of_nat sz) ->
  Hash (VNum t n) opts = Hash (VNum t' n') opts.
Proof.
  intros W W' E. apply Hash_visit_eq.
  change (visit_numeric false t n = visit_numeric false t' n').
  now rewrite (visit_numeric_width _ _ _ W), (visit_numeric_width _ _ _ W'),
    (le_bytes_mod sz n n' E).
Qed.

(** *** Structs *)

Lemma map_loop_no_hook ro f f' es :
  forall h, map_loop None ro f es h = map_loop None ro f' es h.
Proof.
  induction es as [|[k x] es IH]; intros h; cbn [map_loop map_hook];
    [reflexivity|].
  rewrite !bind_ret_l. repeat (apply bind_ext; intros). apply IH.
Qed.

(** Options that say neither "set" nor name a struct with the capability
    [IncludableMap] are as good as none. *)
Lemma visit_opts_none v :
  forall tag ro addr o,
    is_set o = false -> includeMap_of IncludableMap o = None ->
    visit tag v ro addr o = visit tag v ro addr None.
Proof.
  induction v as [b|t n|s|l IHl|l IHl|es IHes|t fs IHfs| |x IHx| |x IHx| | |]
    using value_ind'; intros tag ro addr o Es Em; try reflexivity.
  - now rewrite !visit_VSlice, Es.
  - rewrite !visit_VMap, Em. cbn [includeMap_of].
    apply bind_ext_l, map_loop_no_hook.
  - simpl. now apply IHx.
  - simpl. now apply IHx.
Qed.

Lemma exported_not_blank name :
  IsExported name = true -> String.eqb name "_" = false.
Proof.
  destruct (String.eqb_spec name "_") as [->|]; [discriminate|reflexivity].
Qed.

Lemma field_loop_plain tag t fs0 fs addr :
  Includable t = None ->
  IncludableMap t = None ->
  Forall (plain_member tag) fs ->
  field_loop tag t (VStruct t fs0) false addr fs
  = array_loop tag false addr (map Val fs).
Proof.
  intros Ei Em F.
  induction F as [|f fs (He & Hi & Hs) _ IH]; cbn [field_loop map array_loop];
    [reflexivity|].
  rewrite IH. apply bind_ext_l.
  unfold visit_field, field_hook.
  rewrite (exported_not_blank _ He), He, Hi, Ei, orb_true_r. cbn [negb orb].
  rewrite bind_ret_l. unfold field_flags. rewrite Hs.
  apply visit_opts_none; [reflexivity|].
  unfold includeMap_of. cbn [Struct_]. now rewrite Em.
Qed.

(** X10: a struct whose type has no hook and whose members are exported and
    annotated neither "ignore" nor "set" hashes like the array of the
    values of its members: the name of the type, the names of the members
    and their other annotations do not enter the result of [Hash]. *)
Theorem Hash_struct_as_array (t : string) (fs : list (StructField value))
    (opts : option HashOptions) :
  Includable t = None ->
  IncludableMap t = None ->
  Forall (plain_member (tag_of opts)) fs ->
  Hash (VStruct t fs) opts = Hash (VArray (map Val fs)) opts.
Proof.
  intros Ei Em F. apply Hash_visit_eq.
  rewrite visit_VStruct, visit_VArray. cbn [Interface_]. rewrite bind_ret_l.
  now apply field_loop_plain.
Qed.

End Sequences.

(** ** The byte stream *)

Lemma not64_involutive x : crc64.not64 (crc64.not64 x) = x.
Proof.
  unfold crc64.not64. now rewrite Z.lxor_assoc, Z.lxor_nilpotent, Z.lxor_0_r.
Qed.

Lemma crc64_streaming : streaming crc64_New.
Proof.
  split; cbn [crc64_New hWrite]; unfold crc64.update.
  - intros s. cbn [crc64.update_loop fold_left]. apply not64_involutive.
  - intros s p q. rewrite not64_involutive. unfold crc64.update_loop.
    now rewrite fold_left_app.
Qed.

Lemma Sum64_feed_stream tr :
  forall h, streaming h -> Sum64 (feed h tr) = Sum64 (Write h (stream tr)).
Proof.
  induction tr as [|[p|t f v|t f k v] tr IH]; intros h S.
  - unfold Sum64, Write. cbn [feed fold_left stream flat_map hcur hSum64].
    now rewrite (proj1 S).
  - change (feed h (EvWrite p :: tr)) with (feed (Write h p) tr).
    rewrite IH by (destruct h; exact S).
    unfold Sum64, Write. cbn [stream flat_map hcur hSum64 hWrite].
    now rewrite (proj2 S).
  - apply (IH h S).
  - apply (IH h S).
Qed.

Lemma bytes_of_string_app s s' :
  bytes_of_string (s ++ s') = bytes_of_string s ++ bytes_of_string s'.
Proof.
  unfold bytes_of_string. rewrite <- map_app. f_equal.
  induction s as [|c s IH]; simpl; [reflexivity|]. now rewrite IH.
Qed.

Section ByteStream.

Variable Includable : string -> option HashInclude.
Variable IncludableMap : string -> option HashIncludeMap.

Local Abbreviation visit := (visit Includable IncludableMap).
Local Abbreviation Hash := (Hash Includable IncludableMap).
Local Abbreviation array_loop := (array_loop Includable IncludableMap).

(** X8: with a hasher for which successive writes amount to one write of
    the concatenation (the default CRC-64 is one), the digest of a value
    whose traversal succeeds is the digest of all the bytes written, one
    after the other: where one write ends and the next begins is lost. *)
Theorem Hash_byte_stream (v : value) (opts : option HashOptions)
    (tr : list event) :
  streaming (hasher_of opts) ->
  visit (tag_of opts) v false false None = (tr, Ok tt) ->
  returned (Hash v opts)
  = Returns (Sum64 (Write (Reset (hasher_of opts)) (stream tr))) None.
Proof.
  intros S E. rewrite returned_Hash, E. f_equal.
  apply Sum64_feed_stream. destruct (hasher_of opts). exact S.
Qed.

Lemma array_loop_strings tag ro addr ss :
  array_loop tag ro addr (map VString ss)
  = (map (fun s => EvWrite (bytes_of_string s)) ss, Ok tt).
Proof.
  induction ss as [|s ss IH]; cbn [map array_loop]; [reflexivity|].
  now rewrite IH.
Qed.

Lemma stream_strings ss :
  stream (map (fun s => EvWrite (bytes_of_string s)) ss)
  = bytes_of_string (joined ss).
Proof.
  induction ss as [|s ss IH]; [reflexivity|].
  cbn [map stream flat_map joined fold_right].
  rewrite bytes_of_string_app. f_equal. exact IH.
Qed.

(** X9: strings are written without a length or a terminator, so that with
    such a hasher a slice (or an array) of strings hashes like the one
    string that is their concatenation. *)
Theorem Hash_strings_concat (ss : list string) (opts : option HashOptions) :
  streaming (hasher_of opts) ->
  returned (Hash (VSlice (map VString ss)) opts)
  = returned (Hash (VString (joined ss)) opts)
  /\ returned (Hash (VArray (map VString ss)) opts)
     = returned (Hash (VString (joined ss)) opts).
Proof.
  intros S.
  assert (Hs : returned (Hash (VString (joined ss)) opts)
               = Returns (Sum64 (Write (Reset (hasher_of opts))
                                   (bytes_of_string (joined ss)))) None).
  { rewrite returned_Hash. change (visit (tag_of opts) (VString (joined ss)) false false None)
      with ([EvWrite (bytes_of_string (joined ss))], Ok tt).
    reflexivity. }
  rewrite Hs.
  assert (Ha : returned (Hash (VArray (map VString ss)) opts)
               = Returns (Sum64 (Write (Reset (hasher_of opts))
                                   (bytes_of_string (joined ss)))) None).
  { rewrite returned_Hash, visit_VArray, array_loop_strings. f_equal.
    rewrite Sum64_feed_stream by (destruct (hasher_of opts); exact S).
    now rewrite stream_strings. }
  split; [|exact Ha].
  rewrite <- Ha. f_equal. apply Hash_visit_eq.
  now rewrite visit_plain_slice, visit_VArray.
Qed.

End ByteStream.

Lemma Hash_flattens_sequences_witness :
  Hash0 (VArray [VSlice [int64 1; int64 2]; int64 3]) None
  = Hash0 (VSlice [int64 1; VArray [int64 2; int64 3]]) None.
Proof.
  apply (Hash_flattens_sequences no_Includable no_IncludableMap). reflexivity.
Defined.

Lemma Hash_numeric_bits_witness :
  Hash0 (VNum TInt64 (-1)) None = Hash0 (VNum TUint (2 ^ 64 - 1)) None.
Proof.
  apply (Hash_numeric_bits no_Includable no_IncludableMap TInt64 TUint
           (-1) (2 ^ 64 - 1) 8 None); reflexivity.
Defined.

Lemma Hash_struct_as_array_witness :
  Hash0 (VStruct "Point" [mkField "X" [] (int64 1);
                          mkField "Y" [("json", "y")] (str "a")]) None
  = Hash0 (VArray [int64 1; str "a"]) None.
Proof.
  apply (Hash_struct_as_array no_Includable no_IncludableMap "Point"
           [mkField "X" [] (int64 1); mkField "Y" [("json", "y")] (str "a")]
           None); try reflexivity.
  repeat constructor.
Defined.

Lemma Hash_byte_stream_witness :
  returned (Hash0 (VArray [VNum TUint8 1; VNum TUint8 2]) None)
  = Returns (Sum64 (Write (Reset crc64_New) [1; 2])) None.
Proof.
  apply (Hash_byte_stream no_Includable no_IncludableMap
           (VArray [VNum TUint8 1; VNum TUint8 2]) None
           [EvWrite [1]; EvWrite [2]] crc64_streaming).
  reflexivity.
Defined.

Lemma Hash_strings_concat_witness :
  returned (Hash0 (VSlice [str "ab"; str "c"]) None)
  = returned (Hash0 (str "abc") None)
  /\ returned (Hash0 (VArray [str "ab"; str "c"]) None)
     = returned (Hash0 (str "abc") None).
Proof.
  apply (Hash_strings_concat no_Includable no_IncludableMap ["ab"; "c"] None
           crc64_streaming).
Defined.

(** ** Sets and mappings *)

Lemma silent_obs {A} (m : M A) a :
  silent m -> value_of m = Some a -> obs m = ([], Ok a).
Proof.
  unfold silent, value_of, effect, obs. intros ->.
  destruct (snd m); simpl; congruence.
Qed.

Lemma effect_bind_congr {A B} (m m' : M A) (k k' : A -> M B) :
  effect m = effect m' -> (forall a, effect (k a) = effect (k' a)) ->
  effect (bind m k) = effect (bind m' k').
Proof.
  intros E Hk. rewrite !effect_bind, E.
  destruct (effect m') as [[a w]|]; [|reflexivity]. now rewrite Hk.
Qed.

Lemma lxor_cancel h d : Z.lxor (Z.lxor h d) d = h.
Proof. now rewrite Z.lxor_assoc, Z.lxor_nilpotent, Z.lxor_0_r. Qed.

Section Unordered.

Variable Includable : string -> option HashInclude.
Variable IncludableMap : string -> option HashIncludeMap.

Local Abbreviation visit := (visit Includable IncludableMap).
Local Abbreviation Hash := (Hash Includable IncludableMap).
Local Abbreviation subHash := (subHash Includable IncludableMap).
Local Abbreviation map_loop := (map_loop Includable IncludableMap).
Local Abbreviation field_loop := (field_loop Includable IncludableMap).
Local Abbreviation visit_field := (visit_field Includable IncludableMap).
Local Abbreviation slice_loop := (slice_loop Includable IncludableMap).

(** What an element of a set adds to the running total. *)
Definition elem_contrib (ro : bool) (x : value) : option Z :=
  value_of (Interface_ ro ;;; subHash x).

Lemma silent_set_loop tag ro l :
  forall h, silent (slice_loop tag ro true l h).
Proof.
  induction l as [|x l IH]; intros h; cbn [slice_loop]; [apply silent_ret|].
  repeat (apply silent_bind;
          [first [apply silent_Interface_|apply silent_subHash]|intros ?]).
  apply IH.
Qed.

Lemma value_of_set_loop tag ro l :
  forall h,
    value_of (slice_loop tag ro true l h)
    = option_map (Z.lxor h) (xor_opts (map (elem_contrib ro) l)).
Proof.
  induction l as [|x l IH]; intros h.
  - cbn [map xor_opts option_map slice_loop]. now rewrite Z.lxor_0_r.
  - cbn [map xor_opts slice_loop]. unfold elem_contrib at 1.
    rewrite ?value_of_bind.
    destruct (value_of (Interface_ ro)) as [[]|]; [|reflexivity].
    rewrite ?value_of_bind.
    destruct (value_of (subHash x)) as [hc|]; [|reflexivity].
    rewrite IH. destruct (xor_opts _) as [X|]; [|reflexivity]. simpl.
    now rewrite Z.lxor_assoc.
Qed.

(** The effect of the visitor on a slice taken as a set. *)
Lemma effect_visit_set tag l ro addr o :
  is_set o = true ->
  effect (visit tag (VSlice l) ro addr o)
  = option_map (fun X => (tt, [EvWrite (le_bytes 8 X)]))
      (xor_opts (map (elem_contrib ro) l)).
Proof.
  intros E.
  rewrite visit_VSlice, E, effect_bind, silent_effect by apply silent_set_loop.
  rewrite value_of_set_loop.
  destruct (xor_opts _) as [X|]; reflexivity.
Qed.

(** One member of a struct replaced by another with the same effect. *)
Lemma effect_member tag t pre f f' post ro addr o :
  (forall fs, effect (visit_field tag t (VStruct t fs) ro addr f)
              = effect (visit_field tag t (VStruct t fs) ro addr f')) ->
  effect (visit tag (VStruct t (pre ++ f :: post)) ro addr o)
  = effect (visit tag (VStruct t (pre ++ f' :: post)) ro addr o).
Proof.
  intros E. rewrite !visit_VStruct, !effect_bind.
  rewrite (field_loop_parent _ _ tag t (pre ++ f' :: post) (pre ++ f :: post)).
  rewrite !field_loop_app, !effect_bind. cbn [field_loop].
  now rewrite !effect_bind, E.
Qed.

(** A member annotated "set" whose slice is replaced by another with the
    same XOR of contributions. *)
Lemma effect_set_member tag t n tg l l' pre post ro addr o :
  Tag_Get tg tag = "set" ->
  (forall h, Includable t = Some h -> h n (VSlice l) = h n (VSlice l')) ->
  xor_opts (map (elem_contrib (ro || negb (IsExported n))) l)
  = xor_opts (map (elem_contrib (ro || negb (IsExported n))) l') ->
  effect (visit tag (VStruct t (pre ++ mkField n tg (VSlice l) :: post))
            ro addr o)
  = effect (visit tag (VStruct t (pre ++ mkField n tg (VSlice l') :: post))
              ro addr o).
Proof.
  intros Et Eh Ex. apply effect_member. intros fs.
  unfold visit_field, field_hook. cbn [Name Tag Val]. rewrite Et.
  destruct (CanSet _ _ || _); [|reflexivity].
  cbn [String.eqb Ascii.eqb Bool.eqb andb]. apply effect_bind_congr.
  - destruct (Includable t) as [h|]; [|reflexivity].
    now rewrite !effect_consult, (Eh h eq_refl) by reflexivity.
  - intros [|]; [|reflexivity].
    now rewrite !effect_visit_set, Ex by reflexivity.
Qed.

(** X11: a slice that is a member annotated "set" is hashed as a set: the
    digest of the struct does not depend on the order of the elements of
    the slice (the hook of the struct, if there is one, is taken to answer
    alike for both orders). *)
Theorem Hash_set_order_independent (t n : string) (tg : StructTag)
    (l l' : list value) (pre post : list (StructField value))
    (opts : option HashOptions) :
  Tag_Get tg (tag_of opts) = "set" ->
  (forall h, Includable t = Some h -> h n (VSlice l) = h n (VSlice l')) ->
  Permutation l l' ->
  same_digest
    (returned (Hash (VStruct t (pre ++ mkField n tg (VSlice l) :: post))
                 opts))
    (returned (Hash (VStruct t (pre ++ mkField n tg (VSlice l') :: post))
                 opts)).
Proof.
  intros Et Eh P. apply Hash_same_effect; try reflexivity.
  apply effect_set_member; auto.
  now apply xor_opts_perm, Permutation_map.
Qed.

(** X12: the elements of a set are combined by XOR, so an element that
    occurs twice cancels itself: an exported member annotated "set" whose
    slice holds [x] twice besides the elements of [l] gives the digest of
    the member with [l] alone, when [x] itself hashes without failure and
    the hook of the struct, if there is one, answers alike for the two
    slices. *)
Theorem Hash_set_duplicates_cancel (t n : string) (tg : StructTag)
    (x : value) (d : Z) (l0 l : list value)
    (pre post : list (StructField value)) (opts : option HashOptions) :
  Tag_Get tg (tag_of opts) = "set" ->
  IsExported n = true ->
  value_of (subHash x) = Some d ->
  Permutation l0 (x :: x :: l) ->
  (forall h, Includable t = Some h -> h n (VSlice l0) = h n (VSlice l)) ->
  same_digest
    (returned (Hash (VStruct t (pre ++ mkField n tg (VSlice l0) :: post))
                 opts))
    (returned (Hash (VStruct t (pre ++ mkField n tg (VSlice l) :: post))
                 opts)).
Proof.
  intros Et He Ex P Eh. apply Hash_same_effect; try reflexivity.
  apply effect_set_member; auto. rewrite He. cbn [negb orb].
  rewrite (xor_opts_perm _ _ (Permutation_map _ P)). cbn [map xor_opts].
  assert (Ec : elem_contrib false x = Some d).
  { unfold elem_contrib. cbn [Interface_]. now rewrite bind_ret_l. }
  rewrite Ec. destruct (xor_opts _) as [X|]; [|reflexivity].
  f_equal. now rewrite <- Z.lxor_assoc, Z.lxor_nilpotent, Z.lxor_0_l.
Qed.

(** X13: likewise an entry of a mapping whose key and value have the same
    sub-digest, as when they are equal, adds nothing to the total: the
    mapping hashes like the mapping without the entry. *)
Theorem Hash_map_entry_cancels (es1 es2 : list (value * value))
    (k x : value) (d : Z) (opts : option HashOptions) :
  value_of (subHash k) = Some d ->
  value_of (subHash x) = Some d ->
  returned (Hash (VMap (es1 ++ (k, x) :: es2)) opts)
  = returned (Hash (VMap (es1 ++ es2)) opts).
Proof.
  intros Ek Ex. apply returned_obs. rewrite !visit_VMap.
  apply obs_bind; [|reflexivity]. cbn [includeMap_of StructField_of].
  rewrite !map_loop_app. apply obs_bind_r. intros h.
  cbn [map_loop map_hook Interface_]. rewrite !bind_ret_l.
  rewrite (obs_skip _ d _ (silent_obs _ _ (silent_subHash _ _ k) Ek)).
  rewrite (obs_skip _ d _ (silent_obs _ _ (silent_subHash _ _ x) Ex)).
  now rewrite lxor_cancel.
Qed.

(** X14: an entry that the hook [HashIncludeMap] of the struct owning the
    mapping leaves out (it returns false and no error) adds nothing: the
    struct hashes as if the mapping did not have the entry. *)
Theorem Hash_excluded_entry (t n : string) (tg : StructTag)
    (es1 es2 : list (value * value)) (k x : value)
    (pre post : list (StructField value)) (opts : option HashOptions)
    (g : HashIncludeMap) :
  IncludableMap t = Some g ->
  g n k x = (false, None) ->
  IsExported n = true ->
  (forall h, Includable t = Some h ->
             h n (VMap (es1 ++ (k, x) :: es2)) = h n (VMap (es1 ++ es2))) ->
  returned
    (Hash (VStruct t (pre ++ mkField n tg (VMap (es1 ++ (k, x) :: es2))
                      :: post)) opts)
  = returned
      (Hash (VStruct t (pre ++ mkField n tg (VMap (es1 ++ es2)) :: post))
         opts).
Proof.
  intros Eg Ex He Eh. apply returned_obs, obs_member. intros fs.
  unfold visit_field, field_hook. cbn [Name Tag Val].
  rewrite He. cbn [negb orb].
  destruct (CanSet _ _ || _); [|reflexivity].
  destruct (String.eqb _ "ignore"); [reflexivity|].
  apply obs_bind.
  - destruct (Includable t) as [h|]; [|reflexivity].
    now rewrite !obs_consult, (Eh h eq_refl) by reflexivity.
  - intros [|]; [|reflexivity].
    rewrite !visit_VMap. apply obs_bind; [|reflexivity].
    unfold includeMap_of. cbn [Struct_ StructField_of StructField_].
    rewrite Eg, !map_loop_app. apply obs_bind_r. intros h.
    cbn [map_loop map_hook Interface_]. rewrite !bind_ret_l, Ex.
    now rewrite (obs_skip _ false _
                   (obs_consult (EvHashIncludeMap t n k x) (false, None)
                      eq_refl)).
Qed.

End Unordered.

Lemma Hash_set_order_independent_witness :
  same_digest (returned (Hash0 (tagged [str "a"; str "b"; str "c"]) None))
              (returned (Hash0 (tagged [str "c"; str "a"; str "b"]) None)).
Proof.
  apply (Hash_set_order_independent no_Includable no_IncludableMap "" "Tags"
           [("hash", "set")] [str "a"; str "b"; str "c"]
           [str "c"; str "a"; str "b"] [] [] None).
  - reflexivity.
  - intros h E. discriminate E.
  - symmetry. apply (Permutation_cons_append [str "a"; str "b"] (str "c")).
Defined.

Lemma Hash_set_duplicates_cancel_witness :
  same_digest (returned (Hash0 (tagged [str "a"; str "b"; str "a"]) None))
              (returned (Hash0 (tagged [str "b"]) None)).
Proof.
  eapply (Hash_set_duplicates_cancel no_Includable no_IncludableMap "" "Tags"
            [("hash", "set")] (str "a") _ [str "a"; str "b"; str "a"]
            [str "b"] [] [] None).
  - reflexivity.
  - reflexivity.
  - vm_compute. reflexivity.
  - constructor. apply perm_swap.
  - intros h E. discriminate E.
Defined.

Lemma Hash_map_entry_cancels_witness :
  returned (Hash0 (VMap [(str "A", int64 1); (str "B", str "B")]) None)
  = returned (Hash0 (VMap [(str "A", int64 1)]) None).
Proof.
  eapply (Hash_map_entry_cancels no_Includable no_IncludableMap
            [(str "A", int64 1)] [] (str "B") (str "B") _ None);
    vm_compute; reflexivity.
Defined.

Lemma Hash_excluded_entry_witness :
  returned (Hash no_Includable tmp_IncludableMap
              (recordMap [(str "a", int64 1); (str "tmp", int64 2)]) None)
  = returned (Hash no_Includable tmp_IncludableMap
                (recordMap [(str "a", int64 1)]) None).
Proof.
  apply (Hash_excluded_entry no_Includable tmp_IncludableMap "T" "M" []
           [(str "a", int64 1)] [] (str "tmp") (int64 2) [] [] None
           (fun _ k _ =>
              (match k with
               | VString s => negb (String.eqb s "tmp")
               | _ => true
               end, None))); try reflexivity.
  intros h E. discriminate E.
Defined.

(** ** Values on which [Hash] succeeds *)





Section Succeeds.

Variable Includable : string -> option HashInclude.
Variable IncludableMap : string -> option HashIncludeMap.

Hypothesis hooks_ok : hooks_never_fail Includable IncludableMap.

Local Abbreviation visit := (visit Includable IncludableMap).
Local Abbreviation Hash := (Hash Includable IncludableMap).
Local Abbreviation subHash := (subHash Includable IncludableMap).
Local Abbreviation array_loop := (array_loop Includable IncludableMap).
Local Abbreviation map_loop := (map_loop Includable IncludableMap).
Local Abbreviation field_loop := (field_loop Includable IncludableMap).
Local Abbreviation visit_field := (visit_field Includable IncludableMap).
Local Abbreviation slice_loop := (slice_loop Includable IncludableMap).







End Succeeds.

